(** * unitip: the offer application handlers and the chat topics

    A shallow embedding of
    - [src/app/api/v1/offers/[offer_id]/apply/route.ts] (handlers [POST],
      [DELETE] and [PATCH] on the tables [offers] and [offer_applicants]),
    - the enums of [constants] ([ApplicantStatus], [OfferStatus]),
    - the topic derivation of the chat client
      ([src/app/chats/[userId]/page.tsx], component [Client]).

    A handler is a program over the database: every [await database...]
    of the source is one atomic storage operation ([dbop]); what the
    handler does between two of them is pure.  A program is run alone
    ([run]) or interleaved with another one ([interleave]). *)

From Stdlib Require Import String List ZArith Bool Lia PeanoNat Permutation.
Import ListNotations.
Open Scope string_scope.

Set Implicit Arguments.

(** ** The domain enums ([constants]) *)

Inductive ApplicantStatus := PENDING | ACCEPTED | ON_THE_WAY | DONE.

Definition ApplicantStatus_value (s : ApplicantStatus) : string :=
  match s with
  | PENDING => "pending"
  | ACCEPTED => "accepted"
  | ON_THE_WAY => "on_the_way"
  | DONE => "done"
  end.

Inductive OfferStatus := AVAILABLE | CLOSED.

Definition OfferStatus_value (s : OfferStatus) : string :=
  match s with
  | AVAILABLE => "available"
  | CLOSED => "closed"
  end.

(** A string is in the offer status vocabulary when it is the value of a
    member of [OfferStatus]. *)
Definition is_OfferStatus (s : string) : bool :=
  (s =? OfferStatus_value AVAILABLE) || (s =? OfferStatus_value CLOSED).

(** ** Requests *)

(** A JSON number.  The handlers only copy it into the store, so it is
    kept as an opaque integer code of the value. *)
Definition number := Z.

(** What a destructured field of the request body can be. *)
Inductive jsval :=
| JUndefined
| JNull
| JBool (b : bool)
| JNumber (n : number)
| JString (s : string)
| JArray
| JObject.

(** zod's name of the type it received, used in its default message. *)
Definition received (v : jsval) : string :=
  match v with
  | JUndefined => "undefined"
  | JNull => "null"
  | JBool _ => "boolean"
  | JNumber _ => "number"
  | JString _ => "string"
  | JArray => "array"
  | JObject => "object"
  end.

(** The seven fields both [POST] and [PATCH] destructure from the body;
    a field the body does not have is [JUndefined]. *)
Record Body := {
  raw_note : jsval;
  raw_destination_location : jsval;
  raw_pickup_location : jsval;
  raw_pickup_latitude : jsval;
  raw_pickup_longitude : jsval;
  raw_destination_latitude : jsval;
  raw_destination_longitude : jsval
}.

(** The same seven fields once the schema has accepted them; these are
    the values the handlers write. *)
Record Details := {
  note : string;
  destination_location : string;
  pickup_location : string;
  pickup_latitude : number;
  pickup_longitude : number;
  destination_latitude : number;
  destination_longitude : number
}.

(** What [verifyBearerToken] yields for a valid credential. *)
Record Authorization := { userId : string; role : string }.

(** A request as a handler sees it: the route parameter, the outcome of
    [verifyBearerToken] ([None]: no valid credential) and the outcome of
    [request.json()] followed by the destructuring ([None]: one of the
    two throws). *)
Record Request := {
  offer_id : string;
  authorization : option Authorization;
  json : option Body
}.

(** ** Responses *)

Record Issue := { path : string; message : string }.

(** The calls of [APIResponse] the handlers answer with. *)
Inductive Response :=
| respondWithSuccess (success : bool) (id : nat)
| respondWithBadRequest (errors : list Issue)
| respondWithUnauthorized
| respondWithForbidden (msg : string)
| respondWithNotFound (msg : string)
| respondWithConflict (msg : string)
| respondWithServerError.

Definition MSG_FORBIDDEN : string :=
  "Anda tidak memiliki akses untuk melakukan aksi ini!".
Definition MSG_OFFER_UNAVAILABLE : string :=
  "Offer tidak tersedia atau sudah berakhir!".
Definition MSG_ALREADY_APPLIED : string :=
  "Anda sudah mengajukan aplikasi untuk offer ini!".
Definition MSG_NOTHING_DELETED : string :=
  "Tidak ada data yang dihapus karena tidak ada aplikasi yang ditemukan.".
Definition MSG_APPLICATION_NOT_FOUND : string := "Aplikasi tidak ditemukan.".
Definition MSG_UPDATE_FAILED : string := "Gagal memperbarui aplikasi.".

(** ** Validation (the zod schemas) *)

(** [z.string({ required_error })] on one field. *)
Definition z_string (p required_error : string) (v : jsval)
  : string + Issue :=
  match v with
  | JString s => inl s
  | JUndefined => inr {| path := p; message := required_error |}
  | _ => inr {| path := p;
                message := "Expected string, received " ++ received v |}
  end.

(** [z.number({ required_error })] on one field; a parsed JSON body
    holds no NaN, so every number passes. *)
Definition z_number (p required_error : string) (v : jsval)
  : number + Issue :=
  match v with
  | JNumber n => inl n
  | JUndefined => inr {| path := p; message := required_error |}
  | _ => inr {| path := p;
                message := "Expected number, received " ++ received v |}
  end.

(** [z.string().min(1, msg)] on a value that is a string. *)
Definition z_min1 (p msg : string) (s : string) : list Issue :=
  if (String.length s <? 1)%nat then [{| path := p; message := msg |}] else [].

Definition issue_of {A} (r : A + Issue) : list Issue :=
  match r with inl _ => [] | inr i => [i] end.

(** [schema.safeParse] of [POST] and [PATCH]: the issues in the order of
    the schema's keys, or the accepted values when there is none. *)
Definition safeParse (b : Body) (oid : string) : Details + list Issue :=
  let n := z_string "note" "Catatan untuk pemesanan tidak boleh kosong!"
             (raw_note b) in
  let dl := z_string "destination_location"
              "Lokasi tujuan tidak boleh kosong!"
              (raw_destination_location b) in
  let pl := z_string "pickup_location"
              "Lokasi penjemputan tidak boleh kosong!"
              (raw_pickup_location b) in
  let pla := z_number "pickup_latitude"
               "Latitude lokasi penjemputan tidak boleh kosong!"
               (raw_pickup_latitude b) in
  let plo := z_number "pickup_longitude"
               "Longitude lokasi penjemputan tidak boleh kosong!"
               (raw_pickup_longitude b) in
  let dla := z_number "destination_latitude"
               "Latitude lokasi tujuan tidak boleh kosong!"
               (raw_destination_latitude b) in
  let dlo := z_number "destination_longitude"
               "Longitude lokasi tujuan tidak boleh kosong!"
               (raw_destination_longitude b) in
  let oi := z_min1 "offer_id" "Offer ID tidak boleh kosong!" oid in
  match n, dl, pl, pla, plo, dla, dlo, oi with
  | inl n', inl dl', inl pl', inl pla', inl plo', inl dla', inl dlo', [] =>
      inl {| note := n'; destination_location := dl';
             pickup_location := pl'; pickup_latitude := pla';
             pickup_longitude := plo'; destination_latitude := dla';
             destination_longitude := dlo' |}
  | _, _, _, _, _, _, _, _ =>
      inr (issue_of n ++ issue_of dl ++ issue_of pl ++ issue_of pla
           ++ issue_of plo ++ issue_of dla ++ issue_of dlo ++ oi)%list
  end.

(** The [offerId] schema of [DELETE] and [PATCH]. *)
Definition validate_offerId (oid : string) : list Issue :=
  z_min1 "offerId" "ID penawaran tidak boleh kosong!" oid.

(** ** The store *)

(** A row of [offers], with the columns the handlers read or write. *)
Record OfferRow := {
  o_id : string;
  offer_status : string;
  available_until : Z
}.

(** A row of [offer_applicants].  [id] is the key the store generates on
    insert; the seven request columns are grouped in [details]. *)
Record ApplicantRow := {
  id : nat;
  applicant_status : ApplicantStatus;
  details : Details;
  customer : string;
  offer : string
}.

(** The two tables, the next key the store hands out, and whether the
    schema (not among the sources) declares [(customer, offer)] unique
    on [offer_applicants]. *)
Record Db := {
  offers : list OfferRow;
  offer_applicants : list ApplicantRow;
  next_id : nat;
  unique_customer_offer : bool
}.

Definition is_application (c o : string) (r : ApplicantRow) : bool :=
  (customer r =? c) && (offer r =? o).

Definition is_open_offer (oid : string) (now : Z) (r : OfferRow) : bool :=
  (o_id r =? oid) && (offer_status r =? "available")
  && (now <? available_until r)%Z.

Definition set_offer_status (oid st : string) (r : OfferRow) : OfferRow :=
  if o_id r =? oid
  then {| o_id := o_id r; offer_status := st;
          available_until := available_until r |}
  else r.

Definition set_details (i : nat) (d : Details) (r : ApplicantRow)
  : ApplicantRow :=
  if (id r =? i)%nat
  then {| id := id r; applicant_status := applicant_status r;
          details := d; customer := customer r; offer := offer r |}
  else r.

(** The outcome of one storage call. *)
Inductive result (X : Type) :=
| Returns (x : X)
| Throws.
Arguments Throws {X}.

(** The storage calls of [apply/route.ts], one per [await database...]. *)
Inductive dbop : Type -> Type :=
| SelectOpenOffer (oid : string) : dbop (option OfferRow)
| SelectApplication (c o : string) : dbop (option ApplicantRow)
| InsertApplication (d : Details) (c o : string) : dbop (option nat)
| UpdateOfferStatus (oid st : string) : dbop unit
| DeleteApplicationOrThrow (c o : string) : dbop (option nat)
| UpdateApplication (i : nat) (d : Details) : dbop (list nat).

(** What each call does to the store at time [now] ([NOW()]). *)
Definition exec {X} (q : dbop X) (now : Z) (db : Db) : Db * result X :=
  match q in dbop T return Db * result T with
  | SelectOpenOffer oid =>
      (db, Returns (hd_error (filter (is_open_offer oid now) (offers db))))
  | SelectApplication c o =>
      (db, Returns (hd_error (filter (is_application c o)
                                (offer_applicants db))))
  | InsertApplication d c o =>
      if unique_customer_offer db
         && existsb (is_application c o) (offer_applicants db)
      then (db, Throws)
      else
        ({| offers := offers db;
            offer_applicants :=
              (offer_applicants db
               ++ [{| id := next_id db; applicant_status := PENDING;
                      details := d; customer := c; offer := o |}])%list;
            next_id := S (next_id db);
            unique_customer_offer := unique_customer_offer db |},
         Returns (Some (next_id db)))
  | UpdateOfferStatus oid st =>
      ({| offers := map (set_offer_status oid st) (offers db);
          offer_applicants := offer_applicants db;
          next_id := next_id db;
          unique_customer_offer := unique_customer_offer db |},
       Returns tt)
  | DeleteApplicationOrThrow c o =>
      match filter (is_application c o) (offer_applicants db) with
      | [] => (db, Throws)
      | r :: _ =>
          ({| offers := offers db;
              offer_applicants :=
                filter (fun x => negb (is_application c o x))
                  (offer_applicants db);
              next_id := next_id db;
              unique_customer_offer := unique_customer_offer db |},
           Returns (Some (id r)))
      end
  | UpdateApplication i d =>
      ({| offers := offers db;
          offer_applicants := map (set_details i d) (offer_applicants db);
          next_id := next_id db;
          unique_customer_offer := unique_customer_offer db |},
       Returns [length (filter (fun r => (id r =? i)%nat)
                          (offer_applicants db))])
  end.

(** ** Handler programs *)

Inductive prog (R : Type) : Type :=
| Return (r : R)
| Raise
| Await (X : Type) (q : dbop X) (k : X -> prog R).
Arguments Raise {R}.
Arguments Await {R X} q k.

Notation "'let*' x '<-' q ';' k" := (Await q (fun x => k))
  (at level 61, x name, q at next level, right associativity).

(** One storage call of a program; a finished program stays as it is. *)
Definition step {R} (now : Z) (p : prog R) (db : Db) : Db * prog R :=
  match p with
  | Await q k =>
      match exec q now db with
      | (db', Returns x) => (db', k x)
      | (db', Throws) => (db', Raise)
      end
  | _ => (db, p)
  end.

(** A program run alone to its end. *)
Fixpoint run {R} (now : Z) (p : prog R) (db : Db) : Db * result R :=
  match p with
  | Return r => (db, Returns r)
  | Raise => (db, Throws)
  | Await q k =>
      match exec q now db with
      | (db', Returns x) => run now (k x) db'
      | (db', Throws) => (db', Throws)
      end
  end.

(** The [try { ... } catch (e) { return respondWithServerError() }] around
    every handler body.  [None] is a handler that ends without a [return]
    (it answers [undefined]). *)
Definition try_catch (now : Z) (body : prog (option Response)) (db : Db)
  : Db * option Response :=
  match run now body db with
  | (db', Returns r) => (db', r)
  | (db', Throws) => (db', Some respondWithServerError)
  end.

(** JavaScript's [!x] on an array: an array is never falsy. *)
Definition not_array {A} (_ : list A) : bool := false.

(** ** The handlers of [apply/route.ts] *)

Definition is_customer (a : Authorization) : bool := role a =? "customer".

(** [POST]: a customer applies to an offer. *)
Definition POST (req : Request) : prog (option Response) :=
  match json req with
  | None => Raise
  | Some b =>
  match safeParse b (offer_id req) with
  | inr errors => Return (Some (respondWithBadRequest errors))
  | inl d =>
  match authorization req with
  | None => Return (Some respondWithUnauthorized)
  | Some a =>
  if negb (is_customer a)
  then Return (Some (respondWithForbidden MSG_FORBIDDEN))
  else
    let* singleOffer <- SelectOpenOffer (offer_id req);
    match singleOffer with
    | None => Return (Some (respondWithConflict MSG_OFFER_UNAVAILABLE))
    | Some _ =>
    let* existingApplication <- SelectApplication (userId a) (offer_id req);
    match existingApplication with
    | Some _ => Return (Some (respondWithConflict MSG_ALREADY_APPLIED))
    | None =>
    let* result <- InsertApplication d (userId a) (offer_id req);
    match result with
    | None => Return (Some respondWithServerError)
    | Some i =>
    let* _ <- UpdateOfferStatus (offer_id req) "on_progress";
    Return (Some (respondWithSuccess true i))
    end end end
  end end end.

(** [DELETE]: a customer withdraws their application. *)
Definition DELETE (req : Request) : prog (option Response) :=
  match validate_offerId (offer_id req) with
  | (_ :: _) as errors => Return (Some (respondWithBadRequest errors))
  | [] =>
  match authorization req with
  | None => Return (Some respondWithUnauthorized)
  | Some a =>
  if negb (is_customer a)
  then Return (Some (respondWithForbidden MSG_FORBIDDEN))
  else
    let* result <- DeleteApplicationOrThrow (userId a) (offer_id req);
    match result with
    | None => Return (Some (respondWithConflict MSG_NOTHING_DELETED))
    | Some i => Return (Some (respondWithSuccess true i))
    end
  end end.

(** [PATCH]: a customer rewrites the details of their application.  The
    source has no [return] after the update. *)
Definition PATCH (req : Request) : prog (option Response) :=
  match validate_offerId (offer_id req) with
  | (_ :: _) as errors => Return (Some (respondWithBadRequest errors))
  | [] =>
  match authorization req with
  | None => Return (Some respondWithUnauthorized)
  | Some a =>
  match json req with
  | None => Raise
  | Some b =>
  match safeParse b (offer_id req) with
  | inr errors => Return (Some (respondWithBadRequest errors))
  | inl d =>
  if negb (is_customer a)
  then Return (Some (respondWithForbidden MSG_FORBIDDEN))
  else
    let* existingApplication <- SelectApplication (userId a) (offer_id req);
    match existingApplication with
    | None => Return (Some (respondWithNotFound MSG_APPLICATION_NOT_FOUND))
    | Some e =>
    let* result <- UpdateApplication (id e) d;
    if not_array result
    then Return (Some (respondWithConflict MSG_UPDATE_FAILED))
    else Return None
    end
  end end end end.

(** A handler called alone at time [now] on the store [db]. *)
Definition call (h : Request -> prog (option Response)) (now : Z)
  (req : Request) (db : Db) : Db * option Response :=
  try_catch now (h req) db.

(** The guards the three handlers share: a body the schema accepts and a
    credential whose role is [customer]. *)
Definition customer_request (req : Request)
  : option (Authorization * Details) :=
  match json req, authorization req with
  | Some b, Some a =>
      match safeParse b (offer_id req) with
      | inl d => if is_customer a then Some (a, d) else None
      | inr _ => None
      end
  | _, _ => None
  end.

(** The store after a successful [POST]: the new row, then the offer's
    status rewritten. *)
Definition applied (a : Authorization) (d : Details) (oid : string)
  (db : Db) : Db :=
  {| offers := map (set_offer_status oid "on_progress") (offers db);
     offer_applicants :=
       (offer_applicants db
        ++ [{| id := next_id db; applicant_status := PENDING;
               details := d; customer := userId a; offer := oid |}])%list;
     next_id := S (next_id db);
     unique_customer_offer := unique_customer_offer db |}.

(** The store after a successful [DELETE]. *)
Definition withdrawn (a : Authorization) (oid : string) (db : Db) : Db :=
  {| offers := offers db;
     offer_applicants :=
       filter (fun x => negb (is_application (userId a) oid x))
         (offer_applicants db);
     next_id := next_id db;
     unique_customer_offer := unique_customer_offer db |}.

(** The store after the update of [PATCH]. *)
Definition patched (i : nat) (d : Details) (db : Db) : Db :=
  {| offers := offers db;
     offer_applicants := map (set_details i d) (offer_applicants db);
     next_id := next_id db;
     unique_customer_offer := unique_customer_offer db |}.

(** ** Two calls in flight *)

(** Two programs sharing the store; the schedule says whose storage call
    comes next ([true]: the first program). *)
Fixpoint interleave {R} (now : Z) (sched : list bool) (p1 p2 : prog R)
  (db : Db) : Db * (prog R * prog R) :=
  match sched with
  | [] => (db, (p1, p2))
  | true :: s =>
      let (db', p1') := step now p1 db in interleave now s p1' p2 db'
  | false :: s =>
      let (db', p2') := step now p2 db in interleave now s p1 p2' db'
  end.

(** The answer of a handler program that has come to its end. *)
Definition answer (p : prog (option Response)) : option (option Response) :=
  match p with
  | Return r => Some r
  | Raise => Some (Some respondWithServerError)
  | Await _ _ => None
  end.

(** ** The chat client's topics ([chats/[userId]/page.tsx]) *)

Record ClientProps := { authenticatedUser : string; toUser : string }.

Section ChatTopics.

(** [getPrefixedTopic] of [lib/utils] is not among the sources. *)
Variable getPrefixedTopic : string -> string.

Definition mqttChatMessagesSubTopic (props : ClientProps) : string :=
  getPrefixedTopic
    ("chat-messages/" ++ toUser props ++ "-" ++ authenticatedUser props).

Definition mqttChatMessagesPubTopic (props : ClientProps) : string :=
  getPrefixedTopic
    ("chat-messages/" ++ authenticatedUser props ++ "-" ++ toUser props).

Definition mqttChatRoomsPubTopic (props : ClientProps) : string :=
  getPrefixedTopic ("chat-rooms/" ++ toUser props).

End ChatTopics.

(** * Sample data *)

Definition sample_details : Details :=
  {| note := "tolong cepat"; destination_location := "Gedung B";
     pickup_location := "Gerbang"; pickup_latitude := 7%Z;
     pickup_longitude := 110%Z; destination_latitude := 8%Z;
     destination_longitude := 111%Z |}.

Definition body_of (d : Details) : Body :=
  {| raw_note := JString (note d);
     raw_destination_location := JString (destination_location d);
     raw_pickup_location := JString (pickup_location d);
     raw_pickup_latitude := JNumber (pickup_latitude d);
     raw_pickup_longitude := JNumber (pickup_longitude d);
     raw_destination_latitude := JNumber (destination_latitude d);
     raw_destination_longitude := JNumber (destination_longitude d) |}.

Definition request_of (u : string) (oid : string) (d : Details) : Request :=
  {| offer_id := oid;
     authorization := Some {| userId := u; role := "customer" |};
     json := Some (body_of d) |}.

(** One offer [o1], available until 100, nobody has applied. *)
Definition db0 (uniq : bool) : Db :=
  {| offers := [{| o_id := "o1"; offer_status := "available";
                   available_until := 100%Z |}];
     offer_applicants := [];
     next_id := 0;
     unique_customer_offer := uniq |}.


(** * Properties *)

(** ** Storage facts *)

Lemma hd_error_filter_none {A} (f : A -> bool) (l : list A) :
  hd_error (filter f l) = None -> existsb f l = false.
Proof.
  induction l as [|x l IH]; simpl; [reflexivity|].
  destruct (f x) eqn:E; simpl; [discriminate | exact IH].
Qed.

Lemma hd_error_filter_some {A} (f : A -> bool) (l : list A) (x : A) :
  hd_error (filter f l) = Some x -> In x l /\ f x = true.
Proof.
  intros H.
  assert (Hin : In x (filter f l)).
  { destruct (filter f l); simpl in H; [discriminate|].
    injection H as ->. now left. }
  now apply filter_In in Hin.
Qed.

Lemma filter_none_iff {A} (f : A -> bool) (l : list A) :
  filter f l = [] <-> (forall x, In x l -> f x = false).
Proof.
  induction l as [|y l IH]; simpl.
  - split; [intros _ x [] | reflexivity].
  - destruct (f y) eqn:E; split.
    + discriminate.
    + intros H. rewrite (H y) in E; [discriminate | now left].
    + intros H x [<- | Hx]; [exact E | now apply IH].
    + intros H. apply IH. intros x Hx. apply H. now right.
Qed.

(** Once a status other than [available] is written to every row of an
    offer, the availability query of [POST] finds nothing for it. *)
Lemma no_open_offer_after_status (oid st : string) (now : Z)
  (l : list OfferRow) :
  (st =? "available") = false ->
  filter (is_open_offer oid now) (map (set_offer_status oid st) l) = [].
Proof.
  intros Hst. apply filter_none_iff. intros x Hx.
  apply in_map_iff in Hx. destruct Hx as [r [<- _]].
  unfold set_offer_status, is_open_offer.
  destruct (o_id r =? oid) eqn:E; simpl.
  - rewrite E, Hst. reflexivity.
  - rewrite E. reflexivity.
Qed.

(** ** Running programs *)

Lemma run_step {R} (now : Z) (p : prog R) (db : Db) :
  run now p db = let (db', p') := step now p db in run now p' db'.
Proof.
  destruct p as [r | | X q k]; simpl; try reflexivity.
  destruct (exec q now db) as [db' [x|]]; reflexivity.
Qed.

(** A schedule that lets only the first program move runs it as [step]
    does, and leaves the second one where it was. *)
Lemma interleave_first_only {R} (now : Z) (n : nat) (p1 p2 : prog R)
  (db : Db) :
  snd (snd (interleave now (repeat true n) p1 p2 db)) = p2.
Proof.
  revert p1 db. induction n as [|n IH]; intros p1 db; simpl.
  - reflexivity.
  - destruct (step now p1 db) as [db' p1']. apply IH.
Qed.

(** Letting a program move alone, one storage call at a time, is
    running it: what is left of it runs to the same end. *)
Lemma interleave_alone_run {R} (now : Z) (n : nat) (p1 p2 : prog R)
  (db : Db) :
  let '(db', (p1', _)) := interleave now (repeat true n) p1 p2 db in
  run now p1 db = run now p1' db'.
Proof.
  revert p1 db. induction n as [|n IH]; intros p1 db; simpl.
  - reflexivity.
  - rewrite run_step. destruct (step now p1 db) as [db1 p1']. apply IH.
Qed.

(** ** What the handlers answer *)

Lemma customer_request_inv (req : Request) (a : Authorization)
  (d : Details) :
  customer_request req = Some (a, d) ->
  authorization req = Some a /\ is_customer a = true
  /\ exists b, json req = Some b /\ safeParse b (offer_id req) = inl d.
Proof.
  unfold customer_request.
  destruct (json req) as [b|]; [|discriminate].
  destruct (authorization req) as [a'|]; [|discriminate].
  destruct (safeParse b (offer_id req)) as [d'|] eqn:Ep; [|discriminate].
  destruct (is_customer a') eqn:Ec; [|discriminate].
  intros H. injection H as -> ->. eauto.
Qed.

(** [POST] on a request that passes the guards: one of three outcomes,
    decided by the two queries. *)
Lemma call_POST_customer (now : Z) (req : Request) (db : Db)
  (a : Authorization) (d : Details) :
  customer_request req = Some (a, d) ->
  call POST now req db =
  match hd_error (filter (is_open_offer (offer_id req) now) (offers db)) with
  | None => (db, Some (respondWithConflict MSG_OFFER_UNAVAILABLE))
  | Some _ =>
      match hd_error (filter (is_application (userId a) (offer_id req))
                        (offer_applicants db)) with
      | Some _ => (db, Some (respondWithConflict MSG_ALREADY_APPLIED))
      | None => (applied a d (offer_id req) db,
                 Some (respondWithSuccess true (next_id db)))
      end
  end.
Proof.
  intros H. apply customer_request_inv in H.
  destruct H as [Ha [Hc [b [Hb Hp]]]].
  unfold call, try_catch, POST. rewrite Hb, Hp, Ha, Hc. simpl.
  destruct (hd_error (filter _ (offers db))); simpl; [|reflexivity].
  destruct (hd_error (filter _ (offer_applicants db))) eqn:E; simpl;
    [reflexivity|].
  apply hd_error_filter_none in E. rewrite E, andb_false_r. reflexivity.
Qed.

(** A [POST] that answers success passed the guards, found the offer
    open and no application of the caller, and left [applied]. *)
Lemma call_POST_success (now : Z) (req : Request) (db db1 : Db)
  (ok : bool) (i : nat) :
  call POST now req db = (db1, Some (respondWithSuccess ok i)) ->
  exists a d,
    customer_request req = Some (a, d)
    /\ existsb (is_open_offer (offer_id req) now) (offers db) = true
    /\ existsb (is_application (userId a) (offer_id req))
         (offer_applicants db) = false
    /\ db1 = applied a d (offer_id req) db /\ i = next_id db /\ ok = true.
Proof.
  intros H.
  destruct (customer_request req) as [[a d]|] eqn:Ecr.
  - rewrite (@call_POST_customer now req db a d Ecr) in H.
    destruct (hd_error (filter _ (offers db))) as [o|] eqn:Eo;
      [|discriminate].
    destruct (hd_error (filter _ (offer_applicants db))) eqn:Ea;
      [discriminate|].
    injection H as <- <- <-. exists a, d.
    apply hd_error_filter_some in Eo. destruct Eo as [Hin Ho].
    repeat split; auto.
    + apply existsb_exists. eauto.
    + now apply hd_error_filter_none.
  - exfalso. revert H Ecr. unfold call, try_catch, POST, customer_request.
    destruct (json req) as [b|]; simpl; [|discriminate].
    destruct (safeParse b (offer_id req)); [|discriminate].
    destruct (authorization req) as [a|]; [|discriminate].
    destruct (is_customer a); simpl; discriminate.
Qed.

(** A [POST] never answers success twice for one offer: after a success
    no row of that offer is open, at any later time. *)
Lemma applied_closes_offer (a : Authorization) (d : Details)
  (oid : string) (now : Z) (db : Db) :
  filter (is_open_offer oid now) (offers (applied a d oid db)) = [].
Proof. apply no_open_offer_after_status. reflexivity. Qed.

(** ** Applying to an offer *)

Definition alice_applies : Request := request_of "alice" "o1" sample_details.
Definition bob_applies : Request := request_of "bob" "o1" sample_details.

(** The sample store once alice has applied through [POST]. *)
Definition db1 (uniq : bool) : Db :=
  fst (call POST 50%Z alice_applies (db0 uniq)).

(** C1, as the code has it: when a customer's apply succeeds, the apply
    of any customer that comes next on the same offer, at whatever time,
    is answered Conflict with the offer-unavailable reason and changes
    nothing; the first call added exactly one application, in status
    PENDING, after those the offer already had. *)
Theorem C1_next_applicant_gets_conflict
  (now now' : Z) (reqA reqB : Request) (db dbA : Db) (ok : bool) (i : nat)
  (aB : Authorization) (dB : Details) :
  call POST now reqA db = (dbA, Some (respondWithSuccess ok i)) ->
  customer_request reqB = Some (aB, dB) ->
  offer_id reqB = offer_id reqA ->
  call POST now' reqB dbA
  = (dbA, Some (respondWithConflict MSG_OFFER_UNAVAILABLE))
  /\ exists aA dA,
       customer_request reqA = Some (aA, dA)
       /\ offer_applicants dbA
          = (offer_applicants db
             ++ [{| id := i; applicant_status := PENDING; details := dA;
                    customer := userId aA; offer := offer_id reqA |}])%list.
Proof.
  intros HA HB Hid.
  apply call_POST_success in HA.
  destruct HA as [aA [dA [Hcr [_ [_ [-> [-> _]]]]]]].
  split.
  - rewrite (@call_POST_customer now' reqB _ aB dB HB), Hid.
    rewrite applied_closes_offer. reflexivity.
  - exists aA, dA. split; [exact Hcr | reflexivity].
Qed.

Lemma C1_next_applicant_gets_conflict_witness :
  call POST 60%Z bob_applies (db1 true)
  = (db1 true, Some (respondWithConflict MSG_OFFER_UNAVAILABLE))
  /\ exists aA dA,
       customer_request alice_applies = Some (aA, dA)
       /\ offer_applicants (db1 true)
          = (offer_applicants (db0 true)
             ++ [{| id := 0; applicant_status := PENDING; details := dA;
                    customer := userId aA; offer := offer_id alice_applies |}])%list.
Proof.
  apply (@C1_next_applicant_gets_conflict 50%Z 60%Z alice_applies
           bob_applies (db0 true) (db1 true) true 0
           {| userId := "bob"; role := "customer" |} sample_details);
    reflexivity.
Defined.

(** C1 as stated fails: on the sample offer (available, not yet expired,
    no applicant) alice's apply succeeds and bob's, right after, is
    refused; one application is left, not two. *)
Lemma C1_counterexample :
  "alice" <> "bob"
  /\ call POST 50%Z alice_applies (db0 true)
     = (db1 true, Some (respondWithSuccess true 0))
  /\ call POST 50%Z bob_applies (db1 true)
     = (db1 true, Some (respondWithConflict MSG_OFFER_UNAVAILABLE))
  /\ map customer (offer_applicants (db1 true)) = ["alice"].
Proof. repeat split; [discriminate | reflexivity..]. Qed.

(** C3, as the code has it: when the caller already has an application
    on the offer, a further apply that passes the guards is answered
    Conflict and changes nothing; the reason is the duplicate one while
    the offer is still open (status [available], not expired), and the
    offer-unavailable one otherwise. *)
Theorem C3_repeated_apply_conflict
  (now : Z) (req : Request) (db : Db) (a : Authorization) (d : Details) :
  customer_request req = Some (a, d) ->
  existsb (is_application (userId a) (offer_id req)) (offer_applicants db)
  = true ->
  call POST now req db
  = (db, Some (respondWithConflict
                 (if existsb (is_open_offer (offer_id req) now) (offers db)
                  then MSG_ALREADY_APPLIED
                  else MSG_OFFER_UNAVAILABLE))).
Proof.
  intros Hcr Hex.
  rewrite (@call_POST_customer now req db a d Hcr).
  destruct (hd_error (filter _ (offers db))) as [o|] eqn:Eo.
  - apply hd_error_filter_some in Eo. destruct Eo as [Hin Ho].
    replace (existsb _ (offers db)) with true
      by (symmetry; apply existsb_exists; eauto).
    destruct (hd_error (filter _ (offer_applicants db))) eqn:Ea;
      [reflexivity|].
    apply hd_error_filter_none in Ea. congruence.
  - apply hd_error_filter_none in Eo. rewrite Eo. reflexivity.
Qed.

Lemma C3_repeated_apply_conflict_witness :
  call POST 60%Z alice_applies (db1 true)
  = (db1 true,
     Some (respondWithConflict
             (if existsb (is_open_offer (offer_id alice_applies) 60%Z)
                   (offers (db1 true))
              then MSG_ALREADY_APPLIED
              else MSG_OFFER_UNAVAILABLE))).
Proof.
  apply (@C3_repeated_apply_conflict 60%Z alice_applies (db1 true)
           {| userId := "alice"; role := "customer" |} sample_details);
    reflexivity.
Defined.

(** C3 as stated fails: alice, whose application on the sample offer
    exists, applies again with the same payload and the Conflict she gets
    carries the offer-unavailable reason, not the duplicate one. *)
Lemma C3_counterexample :
  existsb (is_application "alice" "o1") (offer_applicants (db1 true)) = true
  /\ snd (call POST 50%Z alice_applies (db1 true))
     = Some (respondWithConflict MSG_OFFER_UNAVAILABLE)
  /\ MSG_OFFER_UNAVAILABLE <> MSG_ALREADY_APPLIED.
Proof. repeat split; [reflexivity.. | discriminate]. Qed.

(** C4, as the code has it: when every row of the offer has an
    [available_until] that is not in the future, an apply that passes the
    guards is answered Conflict, whatever the stored status, and nothing
    changes.  The reason differs from the duplicate-application one, but
    it is the one reason the handler also gives for an offer whose status
    is not [available] (or that does not exist): expiry is not told apart
    from a filled slot. *)
Theorem C4_expired_offer_conflict
  (now : Z) (req : Request) (db : Db) (a : Authorization) (d : Details) :
  customer_request req = Some (a, d) ->
  (forall r, In r (offers db) -> o_id r = offer_id req ->
             (available_until r <= now)%Z) ->
  call POST now req db
  = (db, Some (respondWithConflict MSG_OFFER_UNAVAILABLE))
  /\ MSG_OFFER_UNAVAILABLE <> MSG_ALREADY_APPLIED
  /\ forall db' : Db,
       (forall r, In r (offers db') -> o_id r = offer_id req ->
                  offer_status r <> "available") ->
       call POST now req db'
       = (db', Some (respondWithConflict MSG_OFFER_UNAVAILABLE)).
Proof.
  intros Hcr Hexp. split; [|split; [discriminate|]].
  - rewrite (@call_POST_customer now req db a d Hcr).
    replace (filter _ (offers db)) with (@nil OfferRow); [reflexivity|].
    symmetry. apply filter_none_iff. intros r Hr. unfold is_open_offer.
    destruct (o_id r =? offer_id req) eqn:E; [|reflexivity].
    apply String.eqb_eq in E. specialize (Hexp r Hr E).
    replace (now <? available_until r)%Z with false
      by (symmetry; apply Z.ltb_ge; exact Hexp).
    apply andb_false_r.
  - intros db' Hst.
    rewrite (@call_POST_customer now req db' a d Hcr).
    replace (filter _ (offers db')) with (@nil OfferRow); [reflexivity|].
    symmetry. apply filter_none_iff. intros r Hr. unfold is_open_offer.
    destruct (o_id r =? offer_id req) eqn:E; [|reflexivity].
    apply String.eqb_eq in E. specialize (Hst r Hr E).
    apply String.eqb_neq in Hst. rewrite Hst. reflexivity.
Qed.

Lemma C4_expired_offer_conflict_witness :
  call POST 100%Z bob_applies (db0 true)
  = (db0 true, Some (respondWithConflict MSG_OFFER_UNAVAILABLE))
  /\ MSG_OFFER_UNAVAILABLE <> MSG_ALREADY_APPLIED
  /\ forall db' : Db,
       (forall r, In r (offers db') -> o_id r = offer_id bob_applies ->
                  offer_status r <> "available") ->
       call POST 100%Z bob_applies db'
       = (db', Some (respondWithConflict MSG_OFFER_UNAVAILABLE)).
Proof.
  apply (@C4_expired_offer_conflict 100%Z bob_applies (db0 true)
           {| userId := "bob"; role := "customer" |} sample_details).
  - reflexivity.
  - simpl. intros r [<- | []] _. simpl. lia.
Defined.

(** C4 as stated fails in its second half: bob's apply on the sample
    offer after its time has run out (time 200, the offer still marked
    [available]) and his apply on the same offer in time but with its
    slot taken by alice get the same Conflict, word for word. *)
Lemma C4_counterexample :
  map available_until (offers (db0 true)) = [100%Z]
  /\ map offer_status (offers (db0 true)) = ["available"]
  /\ snd (call POST 200%Z bob_applies (db0 true))
     = Some (respondWithConflict MSG_OFFER_UNAVAILABLE)
  /\ map offer_status (offers (db1 true)) = ["on_progress"]
  /\ snd (call POST 50%Z bob_applies (db1 true))
     = Some (respondWithConflict MSG_OFFER_UNAVAILABLE).
Proof. repeat split; reflexivity. Qed.

(** Every successful [POST] leaves each row of the offer with the status
    [on_progress], which [OfferStatus] does not have. *)
Lemma POST_success_status (now : Z) (req : Request) (db db' : Db)
  (ok : bool) (i : nat) (r : OfferRow) :
  call POST now req db = (db', Some (respondWithSuccess ok i)) ->
  In r (offers db') -> o_id r = offer_id req ->
  offer_status r = "on_progress" /\ is_OfferStatus (offer_status r) = false.
Proof.
  intros H Hin Hid. apply call_POST_success in H.
  destruct H as [a [d [_ [_ [_ [-> _]]]]]]. simpl in Hin.
  apply in_map_iff in Hin. destruct Hin as [r0 [<- _]].
  revert Hid. unfold set_offer_status.
  destruct (o_id r0 =? offer_id req) eqn:E; simpl.
  - intros _. split; reflexivity.
  - intros Hid. apply String.eqb_neq in E. contradiction.
Qed.

(** C7 fails on the code: alice's successful apply on the sample offer
    writes [on_progress] to its [offer_status], and that string is the
    value of no member of [OfferStatus]. *)
Theorem C7_apply_writes_on_progress :
  snd (call POST 50%Z alice_applies (db0 true))
  = Some (respondWithSuccess true 0)
  /\ map offer_status (offers (db0 true)) = ["available"]
  /\ map offer_status (offers (fst (call POST 50%Z alice_applies (db0 true))))
     = ["on_progress"]
  /\ is_OfferStatus "on_progress" = false
  /\ forall v : OfferStatus, OfferStatus_value v <> "on_progress".
Proof.
  repeat split; try reflexivity. intros [|]; discriminate.
Qed.

(** ** Withdrawing an application *)

Definition alice_withdraws : Request :=
  {| offer_id := "o1";
     authorization := Some {| userId := "alice"; role := "customer" |};
     json := None |}.

(** The sample store after the freelancer has accepted alice. *)
Definition db_accepted : Db :=
  {| offers := [{| o_id := "o1"; offer_status := "on_progress";
                   available_until := 100%Z |}];
     offer_applicants :=
       [{| id := 0; applicant_status := ACCEPTED; details := sample_details;
           customer := "alice"; offer := "o1" |}];
     next_id := 1;
     unique_customer_offer := true |}.

(** [DELETE] past its guards: the query throws when it deletes nothing. *)
Lemma call_DELETE_customer (now : Z) (req : Request) (db : Db)
  (a : Authorization) :
  validate_offerId (offer_id req) = [] ->
  authorization req = Some a ->
  is_customer a = true ->
  call DELETE now req db =
  match filter (is_application (userId a) (offer_id req))
          (offer_applicants db) with
  | [] => (db, Some respondWithServerError)
  | r :: _ => (withdrawn a (offer_id req) db,
               Some (respondWithSuccess true (id r)))
  end.
Proof.
  intros Hv Ha Hc. unfold call, try_catch, DELETE.
  rewrite Hv, Ha, Hc. simpl.
  destruct (filter _ (offer_applicants db)); reflexivity.
Qed.

(** Before its query [DELETE] answers 400, 401 or 403 and touches
    nothing. *)
Lemma call_DELETE_guarded (now : Z) (req : Request) (db : Db) :
  (exists a, validate_offerId (offer_id req) = []
             /\ authorization req = Some a /\ is_customer a = true)
  \/ (call DELETE now req db = (db, Some respondWithUnauthorized)
      \/ call DELETE now req db
         = (db, Some (respondWithForbidden MSG_FORBIDDEN))
      \/ exists errors,
           call DELETE now req db
           = (db, Some (respondWithBadRequest errors))).
Proof.
  unfold call, try_catch, DELETE.
  destruct (validate_offerId (offer_id req)) as [|e es].
  - destruct (authorization req) as [a|]; [|right; left; reflexivity].
    destruct (is_customer a) eqn:Ec; [left; eauto|].
    right; right; left; reflexivity.
  - right; right; right. eexists; reflexivity.
Qed.



(** Alice's accepted application in the sample store. *)
Definition alice_accepted : ApplicantRow :=
  {| id := 0; applicant_status := ACCEPTED; details := sample_details;
     customer := "alice"; offer := "o1" |}.



(** C9: when the caller, past the guards of [DELETE], has no application
    on the offer, the delete query throws and the handler answers
    ServerError, the store as it was; and no call of [DELETE] whatever
    ever answers Conflict, so the branch with the nothing-deleted reason
    is dead. *)
Theorem C9_withdraw_nothing_is_server_error
  (now : Z) (req : Request) (db : Db) (a : Authorization) :
  validate_offerId (offer_id req) = [] ->
  authorization req = Some a ->
  is_customer a = true ->
  (forall r, In r (offer_applicants db) ->
             ~ (customer r = userId a /\ offer r = offer_id req)) ->
  exec (DeleteApplicationOrThrow (userId a) (offer_id req)) now db
  = (db, Throws)
  /\ call DELETE now req db = (db, Some respondWithServerError)
  /\ forall (now' : Z) (req' : Request) (db' : Db) (m : string),
       snd (call DELETE now' req' db') <> Some (respondWithConflict m).
Proof.
  intros Hv Ha Hc Hno.
  assert (Ef : filter (is_application (userId a) (offer_id req))
                 (offer_applicants db) = []).
  { apply filter_none_iff. intros r Hr. specialize (Hno r Hr).
    unfold is_application.
    destruct (customer r =? userId a) eqn:E1; [|reflexivity].
    destruct (offer r =? offer_id req) eqn:E2; [|reflexivity].
    apply String.eqb_eq in E1. apply String.eqb_eq in E2.
    exfalso. apply Hno. auto. }
  split; [|split].
  - simpl. rewrite Ef. reflexivity.
  - rewrite (@call_DELETE_customer now req db a Hv Ha Hc), Ef. reflexivity.
  - intros now' req' db' m.
    destruct (call_DELETE_guarded now' req' db')
      as [[a' [Hv' [Ha' Hc']]] | [E | [E | [errs E]]]];
      try (rewrite E; simpl; discriminate).
    rewrite (@call_DELETE_customer now' req' db' a' Hv' Ha' Hc').
    destruct (filter _ (offer_applicants db')); simpl; discriminate.
Qed.

Lemma C9_withdraw_nothing_is_server_error_witness :
  exec (DeleteApplicationOrThrow "alice" "o1") 50%Z (db0 true)
  = (db0 true, Throws)
  /\ call DELETE 50%Z alice_withdraws (db0 true)
     = (db0 true, Some respondWithServerError)
  /\ forall (now' : Z) (req' : Request) (db' : Db) (m : string),
       snd (call DELETE now' req' db') <> Some (respondWithConflict m).
Proof.
  apply (@C9_withdraw_nothing_is_server_error 50%Z alice_withdraws
           (db0 true) {| userId := "alice"; role := "customer" |}).
  - reflexivity.
  - reflexivity.
  - reflexivity.
  - simpl. intros r [].
Defined.

(** ** Editing an application *)

Definition other_details : Details :=
  {| note := "lewat pintu samping"; destination_location := "Gedung C";
     pickup_location := "Halte"; pickup_latitude := 9%Z;
     pickup_longitude := 112%Z; destination_latitude := 10%Z;
     destination_longitude := 113%Z |}.

Definition alice_edits : Request := request_of "alice" "o1" other_details.

(** [PATCH] past its guards: NotFound, or the update and then no answer. *)
Lemma call_PATCH_customer (now : Z) (req : Request) (db : Db)
  (a : Authorization) (d : Details) :
  validate_offerId (offer_id req) = [] ->
  customer_request req = Some (a, d) ->
  call PATCH now req db =
  match hd_error (filter (is_application (userId a) (offer_id req))
                    (offer_applicants db)) with
  | None => (db, Some (respondWithNotFound MSG_APPLICATION_NOT_FOUND))
  | Some e => (patched (id e) d db, None)
  end.
Proof.
  intros Hv H. apply customer_request_inv in H.
  destruct H as [Ha [Hc [b [Hb Hp]]]].
  unfold call, try_catch, PATCH. rewrite Hv, Ha, Hb, Hp, Hc. simpl.
  destruct (hd_error (filter _ (offer_applicants db))); reflexivity.
Qed.

(** Before its first query [PATCH] answers and touches nothing. *)
Lemma call_PATCH_guarded (now : Z) (req : Request) (db : Db) :
  (exists a d, validate_offerId (offer_id req) = []
               /\ customer_request req = Some (a, d))
  \/ exists r, call PATCH now req db = (db, Some r).
Proof.
  unfold call, try_catch, PATCH, customer_request.
  destruct (validate_offerId (offer_id req)) as [|e es];
    [|right; eexists; reflexivity].
  destruct (authorization req) as [a|]; [|right; eexists; reflexivity].
  destruct (json req) as [b|]; [|right; eexists; reflexivity].
  destruct (safeParse b (offer_id req)) as [d|errs];
    [|right; eexists; reflexivity].
  destruct (is_customer a); [left; eauto | right; eexists; reflexivity].
Qed.

Lemma Forall2_map_same {A} (P : A -> A -> Prop) (f : A -> A) (l : list A) :
  (forall x, In x l -> P x (f x)) -> Forall2 P l (map f l).
Proof.
  induction l as [|x l IH]; intros H; simpl; constructor.
  - apply H. now left.
  - apply IH. intros y Hy. apply H. now right.
Qed.

(** What [PATCH] may do to one row: [x] before, [y] after, [i] the key
    of the application it targets and [d] the details of the request. *)
Definition patch_frame (i : nat) (d : Details) (x y : ApplicantRow) : Prop :=
  id y = id x
  /\ applicant_status y = applicant_status x
  /\ customer y = customer x
  /\ offer y = offer x
  /\ (id x <> i -> y = x)
  /\ (id x = i -> details y = d).

(** C10: a call of [PATCH] that answers anything at all has changed
    nothing.  The one that performs the update (it ends without an
    answer) targets the caller's first application on the offer, leaves
    the table [offers] and the number and order of the applications as
    they were, keeps every row's key, status, customer and offer, leaves
    every row with another key untouched, and gives the targeted row the
    seven details of the request. *)
Theorem C10_patch_changes_only_details
  (now : Z) (req : Request) (db db' : Db) (r : option Response) :
  call PATCH now req db = (db', r) ->
  offers db' = offers db
  /\ (r <> None -> db' = db)
  /\ (r = None ->
      exists a d e,
        customer_request req = Some (a, d)
        /\ hd_error (filter (is_application (userId a) (offer_id req))
                       (offer_applicants db)) = Some e
        /\ Forall2 (patch_frame (id e) d)
             (offer_applicants db) (offer_applicants db')).
Proof.
  intros H.
  destruct (call_PATCH_guarded now req db) as [[a [d [Hv Hcr]]] | [r0 E]].
  - rewrite (@call_PATCH_customer now req db a d Hv Hcr) in H.
    destruct (hd_error (filter _ (offer_applicants db))) as [e|] eqn:Ee.
    + injection H as <- <-. split; [reflexivity|].
      split; [intros Hn; now contradiction Hn|].
      intros _. exists a, d, e. repeat split; auto.
      simpl. apply Forall2_map_same. intros x _.
      unfold patch_frame, set_details.
      destruct (id x =? id e)%nat eqn:Ei; simpl.
      * apply Nat.eqb_eq in Ei. repeat split; auto.
        intros Hn. contradiction.
      * apply Nat.eqb_neq in Ei. repeat split; auto.
        intros Hn. contradiction.
    + injection H as <- <-. repeat split; auto. discriminate.
  - rewrite E in H. injection H as <- <-. repeat split; auto. discriminate.
Qed.

Lemma C10_patch_changes_only_details_witness :
  offers (patched 0 other_details (db1 true)) = offers (db1 true)
  /\ (@None Response <> None -> patched 0 other_details (db1 true) = db1 true)
  /\ (@None Response = None ->
      exists a d e,
        customer_request alice_edits = Some (a, d)
        /\ hd_error (filter (is_application (userId a) (offer_id alice_edits))
                       (offer_applicants (db1 true))) = Some e
        /\ Forall2 (patch_frame (id e) d)
             (offer_applicants (db1 true))
             (offer_applicants (patched 0 other_details (db1 true)))).
Proof.
  apply (@C10_patch_changes_only_details 50%Z alice_edits (db1 true)
           (patched 0 other_details (db1 true)) None).
  reflexivity.
Defined.

(** [POST] and [DELETE] answer on every path. *)
Lemma POST_always_answers (now : Z) (req : Request) (db : Db) :
  snd (call POST now req db) <> None.
Proof.
  unfold call, try_catch, POST.
  destruct (json req) as [b|]; simpl; [|discriminate].
  destruct (safeParse b (offer_id req)); simpl; [|discriminate].
  destruct (authorization req) as [a|]; simpl; [|discriminate].
  destruct (is_customer a); simpl; [|discriminate].
  destruct (hd_error (filter _ (offers db))); simpl; [|discriminate].
  destruct (hd_error (filter _ (offer_applicants db))); simpl;
    [discriminate|].
  destruct (unique_customer_offer db && _); simpl; discriminate.
Qed.

Lemma DELETE_always_answers (now : Z) (req : Request) (db : Db) :
  snd (call DELETE now req db) <> None.
Proof.
  destruct (call_DELETE_guarded now req db)
    as [[a [Hv [Ha Hc]]] | [E | [E | [errs E]]]];
    try (rewrite E; simpl; discriminate).
  rewrite (@call_DELETE_customer now req db a Hv Ha Hc).
  destruct (filter _ (offer_applicants db)); simpl; discriminate.
Qed.

(** [PATCH] answers nothing exactly when it has performed its update. *)
Lemma PATCH_update_answers_nothing (now : Z) (req : Request) (db : Db)
  (a : Authorization) (d : Details) :
  validate_offerId (offer_id req) = [] ->
  customer_request req = Some (a, d) ->
  existsb (is_application (userId a) (offer_id req)) (offer_applicants db)
  = true ->
  snd (call PATCH now req db) = None.
Proof.
  intros Hv Hcr Hex.
  rewrite (@call_PATCH_customer now req db a d Hv Hcr).
  destruct (hd_error (filter _ (offer_applicants db))) eqn:E; [reflexivity|].
  apply hd_error_filter_none in E. congruence.
Qed.

(** C8 fails on the code: alice, whose application on the sample offer
    exists, sends a valid PATCH; the details are rewritten and the
    handler ends without any answer, where [POST] and [DELETE] answer
    with a success envelope. *)
Theorem C8_patch_success_has_no_response :
  call PATCH 50%Z alice_edits (db1 true)
  = (patched 0 other_details (db1 true), None)
  /\ map details (offer_applicants (db1 true)) = [sample_details]
  /\ map details (offer_applicants (patched 0 other_details (db1 true)))
     = [other_details].
Proof. repeat split; reflexivity. Qed.

(** ** Two applies in flight *)

(** The two calls take turns, one storage call each. *)
Definition turn_by_turn : list bool :=
  [true; false; true; false; true; false; true; false].

(** The first call makes its four storage calls, then the second. *)
Definition one_after_the_other : list bool :=
  [true; true; true; true; false; false; false; false].

(** Whatever the store, when the offer is open, the caller has not
    applied yet and the table has no unique constraint, two applies of
    one customer that take turns both pass the duplicate check before
    either inserts, and both insert. *)
Lemma race_inserts_twice (now : Z) (req1 req2 : Request) (db : Db)
  (a : Authorization) (d1 d2 : Details) :
  customer_request req1 = Some (a, d1) ->
  customer_request req2 = Some (a, d2) ->
  offer_id req2 = offer_id req1 ->
  existsb (is_open_offer (offer_id req1) now) (offers db) = true ->
  existsb (is_application (userId a) (offer_id req1)) (offer_applicants db)
  = false ->
  unique_customer_offer db = false ->
  let '(db', (p1, p2)) :=
    interleave now turn_by_turn (POST req1) (POST req2) db in
  answer p1 = Some (Some (respondWithSuccess true (next_id db)))
  /\ answer p2 = Some (Some (respondWithSuccess true (S (next_id db))))
  /\ offer_applicants db'
     = (offer_applicants db
        ++ [{| id := next_id db; applicant_status := PENDING;
               details := d1; customer := userId a;
               offer := offer_id req1 |};
            {| id := S (next_id db); applicant_status := PENDING;
               details := d2; customer := userId a;
               offer := offer_id req1 |}])%list.
Proof.
  intros H1 H2 Hid Hopen Hnone Hu.
  apply customer_request_inv in H1. destruct H1 as [Ha1 [Hc [b1 [Hb1 Hp1]]]].
  apply customer_request_inv in H2. destruct H2 as [Ha2 [_ [b2 [Hb2 Hp2]]]].
  assert (Eo : exists o, hd_error (filter (is_open_offer (offer_id req1) now)
                                     (offers db)) = Some o).
  { destruct (hd_error (filter _ (offers db))) eqn:E; [eauto|].
    apply hd_error_filter_none in E. congruence. }
  destruct Eo as [o Eo].
  assert (Ea : hd_error (filter (is_application (userId a) (offer_id req1))
                           (offer_applicants db)) = None).
  { destruct (hd_error (filter _ (offer_applicants db))) eqn:E;
      [|reflexivity].
    apply hd_error_filter_some in E. destruct E as [Hin Hf].
    assert (existsb (is_application (userId a) (offer_id req1))
              (offer_applicants db) = true)
      by (apply existsb_exists; eauto).
    congruence. }
  unfold turn_by_turn, POST.
  rewrite Hb1, Hp1, Ha1, Hb2, Hp2, Ha2, Hc, Hid. simpl.
  rewrite Eo. simpl. rewrite Ea. simpl. rewrite Hu. simpl.
  rewrite <- app_assoc. simpl. repeat split; reflexivity.
Qed.

(** C2 fails on the code: the duplicate check and the insert of [POST]
    are two storage calls.  Two applies of alice on the sample offer that
    take turns both find no application of hers and both insert: without
    a unique constraint she ends with two PENDING applications on the
    same offer; with one, the second insert throws and the second call is
    answered ServerError, not Conflict.  One after the other, the same
    two calls end with one application and a Conflict. *)
Theorem C2_check_then_insert_races :
  (let '(db', (p1, p2)) :=
     interleave 50%Z turn_by_turn (POST alice_applies) (POST alice_applies)
       (db0 false) in
   answer p1 = Some (Some (respondWithSuccess true 0))
   /\ answer p2 = Some (Some (respondWithSuccess true 1))
   /\ map (fun r => (customer r, offer r, applicant_status r))
        (offer_applicants db')
      = [("alice", "o1", PENDING); ("alice", "o1", PENDING)])
  /\ (let '(db', (p1, p2)) :=
        interleave 50%Z turn_by_turn (POST alice_applies)
          (POST alice_applies) (db0 true) in
      answer p1 = Some (Some (respondWithSuccess true 0))
      /\ answer p2 = Some (Some respondWithServerError)
      /\ map (fun r => (customer r, offer r, applicant_status r))
           (offer_applicants db')
         = [("alice", "o1", PENDING)])
  /\ (let '(db', (p1, p2)) :=
        interleave 50%Z one_after_the_other (POST alice_applies)
          (POST alice_applies) (db0 false) in
      answer p1 = Some (Some (respondWithSuccess true 0))
      /\ answer p2
         = Some (Some (respondWithConflict MSG_OFFER_UNAVAILABLE))
      /\ map (fun r => (customer r, offer r, applicant_status r))
           (offer_applicants db')
         = [("alice", "o1", PENDING)]).
Proof. repeat split; vm_compute; reflexivity. Qed.

(** ** Chat topics *)

Lemma append_same_length (a b x y : string) :
  String.length a = String.length b -> a ++ x = b ++ y -> a = b.
Proof.
  revert b. induction a as [|c a IH]; intros [|c' b] Hl H;
    simpl in *; try discriminate; [reflexivity|].
  injection H as -> H. f_equal. apply IH; [lia | exact H].
Qed.

Lemma append_assoc_string (x y z : string) : (x ++ y) ++ z = x ++ y ++ z.
Proof. induction x as [|c x IH]; simpl; [reflexivity | now rewrite IH]. Qed.

Lemma length_append_string (x y : string) :
  String.length (x ++ y) = String.length x + String.length y.
Proof. induction x as [|c x IH]; simpl; [reflexivity | now rewrite IH]. Qed.

(** When [a] is no longer than [b], equal concatenations start with [a]
    on both sides. *)
Lemma append_shorter_first (a b x y : string) :
  String.length a <= String.length b -> a ++ x = b ++ y ->
  exists w, b = a ++ w /\ x = w ++ y.
Proof.
  revert b. induction a as [|c a IH]; intros b Hl H; simpl in *.
  - exists b. auto.
  - destruct b as [|c' b]; simpl in *; [lia|].
    injection H as -> H. destruct (IH b) as [w [-> ->]]; [lia | exact H|].
    exists w. auto.
Qed.

(** [u], [u-u], [u-u-u], ...: [u] followed [n] times by a dash and
    [u]. *)
Fixpoint dash_repeat (u : string) (n : nat) : string :=
  match n with
  | 0 => u
  | S k => u ++ "-" ++ dash_repeat u k
  end.

Lemma dash_repeat_join (u : string) (m n : nat) :
  dash_repeat u m ++ "-" ++ dash_repeat u n = dash_repeat u (m + S n).
Proof.
  induction m as [|m IH]; cbn [dash_repeat Nat.add]; [reflexivity|].
  rewrite !append_assoc_string. now rewrite IH.
Qed.

(** Two identities give the same string in both orders around a dash
    only when both are repetitions of one string. *)
Lemma dash_commute_repeat (n : nat) (a b : string) :
  String.length a + String.length b <= n ->
  a ++ "-" ++ b = b ++ "-" ++ a ->
  exists u m k, a = dash_repeat u m /\ b = dash_repeat u k.
Proof.
  revert a b. induction n as [|n IH]; intros a b Hn H.
  - destruct a, b; simpl in Hn; try lia. exists "", 0, 0. auto.
  - destruct (Nat.lt_trichotomy (String.length a) (String.length b))
      as [Hlt | [Heq | Hgt]].
    + destruct (append_shorter_first a b ("-" ++ b) ("-" ++ a))
        as [w [Hb Hw]]; [lia | exact H|].
      destruct w as [|c z].
      * rewrite Hb, length_append_string in Hlt. simpl in Hlt. lia.
      * simpl in Hw. injection Hw as <- Hz.
        assert (Hlen : String.length b
                       = String.length a + S (String.length z)).
        { rewrite Hb, length_append_string. reflexivity. }
        destruct (IH a z) as [u [m [k [Ea Ez]]]].
        -- lia.
        -- exact (eq_trans (eq_sym Hb) Hz).
        -- exists u, m, (m + S k). split; [exact Ea|].
           rewrite Hb, <- dash_repeat_join, <- Ea, <- Ez. reflexivity.
    + assert (a = b)
        by (apply (@append_same_length a b ("-" ++ b) ("-" ++ a)); auto).
      subst b. exists a, 0, 0. auto.
    + destruct (append_shorter_first b a ("-" ++ a) ("-" ++ b))
        as [w [Ha Hw]]; [lia | now symmetry|].
      destruct w as [|c z].
      * rewrite Ha, length_append_string in Hgt. simpl in Hgt. lia.
      * simpl in Hw. injection Hw as <- Hz.
        assert (Hlen : String.length a
                       = String.length b + S (String.length z)).
        { rewrite Ha, length_append_string. reflexivity. }
        destruct (IH b z) as [u [m [k [Eb Ez]]]].
        -- lia.
        -- exact (eq_trans (eq_sym Ha) Hz).
        -- exists u, (m + S k), m. split; [|exact Eb].
           rewrite Ha, <- dash_repeat_join, <- Eb, <- Ez. reflexivity.
Qed.

Lemma dash_repeat_commute (u : string) (m k : nat) :
  dash_repeat u m ++ "-" ++ dash_repeat u k
  = dash_repeat u k ++ "-" ++ dash_repeat u m.
Proof.
  rewrite !dash_repeat_join. f_equal. lia.
Qed.

(** C6, as the code has it: for every pair of identities the three
    topics are derived as stated and each side's publish message-topic
    is the other side's subscribe message-topic.  When the prefixing
    keeps distinct topics distinct, the room topic is never the inbound
    one, and a side publishes its messages to its own inbound topic
    exactly when the two identities are repetitions of one string joined
    by dashes ([u], [u-u], [u-u-u], ...), the same identity twice
    included; for every other pair it does not. *)
Theorem C6_topics_of_a_pair (getPrefixedTopic : string -> string)
  (a b : string) :
  let mine := {| authenticatedUser := a; toUser := b |} in
  let theirs := {| authenticatedUser := b; toUser := a |} in
  mqttChatMessagesSubTopic getPrefixedTopic mine
  = getPrefixedTopic ("chat-messages/" ++ b ++ "-" ++ a)
  /\ mqttChatMessagesPubTopic getPrefixedTopic mine
     = getPrefixedTopic ("chat-messages/" ++ a ++ "-" ++ b)
  /\ mqttChatRoomsPubTopic getPrefixedTopic mine
     = getPrefixedTopic ("chat-rooms/" ++ b)
  /\ mqttChatMessagesPubTopic getPrefixedTopic mine
     = mqttChatMessagesSubTopic getPrefixedTopic theirs
  /\ mqttChatMessagesPubTopic getPrefixedTopic theirs
     = mqttChatMessagesSubTopic getPrefixedTopic mine
  /\ ((forall s t, getPrefixedTopic s = getPrefixedTopic t -> s = t) ->
      mqttChatRoomsPubTopic getPrefixedTopic mine
      <> mqttChatMessagesSubTopic getPrefixedTopic mine
      /\ (mqttChatMessagesPubTopic getPrefixedTopic mine
          = mqttChatMessagesSubTopic getPrefixedTopic mine
          <-> exists u m k, a = dash_repeat u m /\ b = dash_repeat u k)).
Proof.
  intros mine theirs.
  do 5 (split; [reflexivity|]).
  intros Hinj. split; [|split].
  - unfold mqttChatRoomsPubTopic, mqttChatMessagesSubTopic. simpl.
    intros H. apply Hinj in H. simpl in H. discriminate.
  - unfold mqttChatMessagesPubTopic, mqttChatMessagesSubTopic. simpl.
    intros H. apply Hinj in H. simpl in H.
    repeat (injection H as H).
    now apply (@dash_commute_repeat
                 (String.length a + String.length b) a b (le_n _)).
  - intros [u [m [k [-> ->]]]].
    unfold mqttChatMessagesPubTopic, mqttChatMessagesSubTopic.
    cbn [authenticatedUser toUser mine].
    rewrite (dash_repeat_commute u m k). reflexivity.
Qed.

(** A prefix in front of the topic, as one broker shared by several
    deployments needs. *)
Definition sample_prefix (t : string) : string := "unitip/" ++ t.

Lemma C6_topics_of_a_pair_witness :
  let mine := {| authenticatedUser := "u1"; toUser := "u2" |} in
  let theirs := {| authenticatedUser := "u2"; toUser := "u1" |} in
  mqttChatMessagesSubTopic sample_prefix mine
  = sample_prefix ("chat-messages/" ++ "u2" ++ "-" ++ "u1")
  /\ mqttChatMessagesPubTopic sample_prefix mine
     = sample_prefix ("chat-messages/" ++ "u1" ++ "-" ++ "u2")
  /\ mqttChatRoomsPubTopic sample_prefix mine
     = sample_prefix ("chat-rooms/" ++ "u2")
  /\ mqttChatMessagesPubTopic sample_prefix mine
     = mqttChatMessagesSubTopic sample_prefix theirs
  /\ mqttChatMessagesPubTopic sample_prefix theirs
     = mqttChatMessagesSubTopic sample_prefix mine
  /\ mqttChatRoomsPubTopic sample_prefix mine
     <> mqttChatMessagesSubTopic sample_prefix mine
  /\ mqttChatMessagesPubTopic sample_prefix mine
     <> mqttChatMessagesSubTopic sample_prefix mine.
Proof.
  destruct (@C6_topics_of_a_pair sample_prefix "u1" "u2")
    as [H1 [H2 [H3 [H4 [H5 H6]]]]].
  repeat (split; [assumption|]).
  destruct H6 as [H6 H7].
  { unfold sample_prefix. simpl. intros s t H. injection H as H. exact H. }
  split; [exact H6|].
  intros H. apply H7 in H. destruct H as [u [m [k [E1 E2]]]].
  destruct m as [|m]; simpl in E1.
  - subst u. destruct k; simpl in E2; discriminate.
  - destruct u as [|c1 [|c2 [|c3 u]]]; simpl in E1; discriminate.
Defined.

(** C6 as stated fails in its last part: the client of user [7-7] in the
    chat with user [7] publishes to the very topic it listens on,
    whatever the prefix. *)
Lemma C6_counterexample :
  "7-7" <> "7"
  /\ forall getPrefixedTopic : string -> string,
       mqttChatMessagesPubTopic getPrefixedTopic
         {| authenticatedUser := "7-7"; toUser := "7" |}
       = mqttChatMessagesSubTopic getPrefixedTopic
           {| authenticatedUser := "7-7"; toUser := "7" |}.
Proof. split; [discriminate | reflexivity]. Qed.

(** * The route as a whole *)

(** ** The schema *)

(** The schema accepts a body exactly when its three texts are strings,
    its four coordinates are numbers and the offer id is not empty; what
    it hands on are those very values.  An empty note or location is a
    string and passes. *)
Theorem safeParse_accepts_iff (b : Body) (oid : string) (d : Details) :
  safeParse b oid = inl d <-> b = body_of d /\ oid <> "".
Proof.
  split.
  - destruct b as [n dl pl pla plo dla dlo]. unfold safeParse. simpl.
    destruct n; simpl; try discriminate.
    destruct dl; simpl; try discriminate.
    destruct pl; simpl; try discriminate.
    destruct pla; simpl; try discriminate.
    destruct plo; simpl; try discriminate.
    destruct dla; simpl; try discriminate.
    destruct dlo; simpl; try discriminate.
    destruct oid as [|c oid]; simpl; try discriminate.
    intros H. injection H as <-. split; [reflexivity | discriminate].
  - intros [-> Hne]. destruct d. unfold safeParse, body_of. simpl.
    destruct oid as [|c oid]; [contradiction | reflexivity].
Qed.

Lemma safeParse_validates_offer_id (b : Body) (oid : string) (d : Details) :
  safeParse b oid = inl d -> validate_offerId oid = [].
Proof.
  intros H. apply safeParse_accepts_iff in H. destruct H as [_ H].
  destruct oid; [contradiction | reflexivity].
Qed.

(** The keys of the schema, in its order. *)
Definition schema_keys : list string :=
  ["note"; "destination_location"; "pickup_location"; "pickup_latitude";
   "pickup_longitude"; "destination_latitude"; "destination_longitude";
   "offer_id"].

(** [xs] is [ys] with some elements left out. *)
Fixpoint subseq (xs ys : list string) : bool :=
  match xs, ys with
  | [], _ => true
  | _ :: _, [] => false
  | x :: xs', y :: ys' =>
      if x =? y then subseq xs' ys' else subseq xs ys'
  end.

(** The text fields with the message of a missing one. *)
Definition required_texts : list (string * (Body -> jsval) * string) :=
  [("note", raw_note, "Catatan untuk pemesanan tidak boleh kosong!");
   ("destination_location", raw_destination_location,
    "Lokasi tujuan tidak boleh kosong!");
   ("pickup_location", raw_pickup_location,
    "Lokasi penjemputan tidak boleh kosong!")].

(** The coordinates with the message of a missing one. *)
Definition required_numbers : list (string * (Body -> jsval) * string) :=
  [("pickup_latitude", raw_pickup_latitude,
    "Latitude lokasi penjemputan tidak boleh kosong!");
   ("pickup_longitude", raw_pickup_longitude,
    "Longitude lokasi penjemputan tidak boleh kosong!");
   ("destination_latitude", raw_destination_latitude,
    "Latitude lokasi tujuan tidak boleh kosong!");
   ("destination_longitude", raw_destination_longitude,
    "Longitude lokasi tujuan tidak boleh kosong!")].

Lemma z_string_path (p m : string) (v : jsval) :
  match z_string p m v with inl _ => True | inr i => path i = p end.
Proof. destruct v; exact I || reflexivity. Qed.

Lemma z_number_path (p m : string) (v : jsval) :
  match z_number p m v with inl _ => True | inr i => path i = p end.
Proof. destruct v; exact I || reflexivity. Qed.

Lemma z_string_missing (p m : string) (v : jsval) :
  v = JUndefined -> z_string p m v = inr {| path := p; message := m |}.
Proof. intros ->. reflexivity. Qed.

Lemma z_number_missing (p m : string) (v : jsval) :
  v = JUndefined -> z_number p m v = inr {| path := p; message := m |}.
Proof. intros ->. reflexivity. Qed.

(** All the issues of a body, field after field. *)
Definition all_issues (b : Body) (oid : string) : list Issue :=
  (issue_of (z_string "note" "Catatan untuk pemesanan tidak boleh kosong!"
               (raw_note b))
   ++ issue_of (z_string "destination_location"
                  "Lokasi tujuan tidak boleh kosong!"
                  (raw_destination_location b))
   ++ issue_of (z_string "pickup_location"
                  "Lokasi penjemputan tidak boleh kosong!"
                  (raw_pickup_location b))
   ++ issue_of (z_number "pickup_latitude"
                  "Latitude lokasi penjemputan tidak boleh kosong!"
                  (raw_pickup_latitude b))
   ++ issue_of (z_number "pickup_longitude"
                  "Longitude lokasi penjemputan tidak boleh kosong!"
                  (raw_pickup_longitude b))
   ++ issue_of (z_number "destination_latitude"
                  "Latitude lokasi tujuan tidak boleh kosong!"
                  (raw_destination_latitude b))
   ++ issue_of (z_number "destination_longitude"
                  "Longitude lokasi tujuan tidak boleh kosong!"
                  (raw_destination_longitude b))
   ++ z_min1 "offer_id" "Offer ID tidak boleh kosong!" oid)%list.

(** The paths of the issues of one field: none, or the field's key. *)
Definition at_most (p : string) (l : list Issue) : Prop :=
  l = [] \/ exists m, l = [{| path := p; message := m |}].

Lemma issue_of_z_string (p m : string) (v : jsval) :
  at_most p (issue_of (z_string p m v)).
Proof.
  pose proof (z_string_path p m v) as P.
  destruct (z_string p m v) as [s|[q m']]; simpl in *;
    [left; reflexivity | subst; right; eauto].
Qed.

Lemma issue_of_z_number (p m : string) (v : jsval) :
  at_most p (issue_of (z_number p m v)).
Proof.
  pose proof (z_number_path p m v) as P.
  destruct (z_number p m v) as [s|[q m']]; simpl in *;
    [left; reflexivity | subst; right; eauto].
Qed.

Lemma z_min1_at_most (p m s : string) : at_most p (z_min1 p m s).
Proof.
  unfold z_min1. destruct (String.length s <? 1)%nat;
    [right; eauto | left; reflexivity].
Qed.

Lemma subseq_weaken (ys : list string) :
  (forall xs y, subseq xs ys = true -> subseq xs (y :: ys) = true)
  /\ (forall x xs, subseq (x :: xs) ys = true -> subseq xs ys = true).
Proof.
  induction ys as [|k ys [IHA IHB]].
  - assert (B : forall x xs, subseq (x :: xs) [] = true ->
                             subseq xs [] = true) by discriminate.
    split; [|exact B].
    intros [|x xs] y H; [reflexivity | discriminate].
  - assert (B : forall x xs, subseq (x :: xs) (k :: ys) = true ->
                             subseq xs (k :: ys) = true).
    { intros x xs. simpl. destruct (x =? k); intros H.
      - now apply IHA.
      - apply IHA. now apply IHB with (x := x). }
    split; [|exact B].
    intros [|x xs] y H; [reflexivity|].
    change (subseq (x :: xs) (y :: k :: ys))
      with (if x =? y then subseq xs (k :: ys)
            else subseq (x :: xs) (k :: ys)).
    destruct (x =? y); [now apply B with (x := x) | exact H].
Qed.

(** Issues gathered key by key follow the order of the keys. *)
Lemma subseq_at_most (p : string) (l rest : list Issue)
  (keys : list string) :
  at_most p l -> subseq (map path rest) keys = true ->
  subseq (map path (l ++ rest)) (p :: keys) = true.
Proof.
  intros [-> | [m ->]] H; simpl.
  - now apply subseq_weaken.
  - rewrite String.eqb_refl. exact H.
Qed.

Lemma subseq_at_most_last (p : string) (l : list Issue) :
  at_most p l -> subseq (map path l) [p] = true.
Proof.
  intros [-> | [m ->]]; simpl; [reflexivity|].
  rewrite String.eqb_refl. reflexivity.
Qed.

Lemma all_issues_in_order (b : Body) (oid : string) :
  subseq (map path (all_issues b oid)) schema_keys = true.
Proof.
  unfold all_issues, schema_keys.
  repeat (apply subseq_at_most;
          [apply issue_of_z_string || apply issue_of_z_number|]).
  apply subseq_at_most_last, z_min1_at_most.
Qed.

(** The choice [safeParse] makes between the values and the issues. *)
Lemma values_or_issues (A B : Type) (n dl pl : A + Issue)
  (pla plo dla dlo : B + Issue) (oi : list Issue) (T : Type)
  (ok : A -> A -> A -> B -> B -> B -> B -> T) (errors : list Issue) :
  match n, dl, pl, pla, plo, dla, dlo, oi with
  | inl n', inl dl', inl pl', inl pla', inl plo', inl dla', inl dlo', [] =>
      inl (ok n' dl' pl' pla' plo' dla' dlo')
  | _, _, _, _, _, _, _, _ =>
      inr (issue_of n ++ issue_of dl ++ issue_of pl ++ issue_of pla
           ++ issue_of plo ++ issue_of dla ++ issue_of dlo ++ oi)%list
  end = inr errors ->
  errors = (issue_of n ++ issue_of dl ++ issue_of pl ++ issue_of pla
            ++ issue_of plo ++ issue_of dla ++ issue_of dlo ++ oi)%list
  /\ errors <> [].
Proof.
  destruct n, dl, pl, pla, plo, dla, dlo, oi; intros H;
    first [ discriminate
          | injection H as <-; split; [reflexivity | discriminate] ].
Qed.

(** A rejected body is reported with at least one issue and at most one
    per key, in the order of the schema. *)
Lemma safeParse_rejects (b : Body) (oid : string) (errors : list Issue) :
  safeParse b oid = inr errors ->
  errors = all_issues b oid
  /\ errors <> []
  /\ subseq (map path errors) schema_keys = true.
Proof.
  intros H. unfold safeParse in H. cbv zeta in H.
  apply values_or_issues
    with (ok := fun n' dl' pl' pla' plo' dla' dlo' =>
                  {| note := n'; destination_location := dl';
                     pickup_location := pl'; pickup_latitude := pla';
                     pickup_longitude := plo'; destination_latitude := dla';
                     destination_longitude := dlo' |}) in H.
  destruct H as [-> Hne]. repeat split; auto. apply all_issues_in_order.
Qed.

(** What a caller reads in a 400 of [POST] or [PATCH]: there is at least
    one issue, the issues follow the order of the schema's keys with no
    key twice, and every field the body does not have is among them with
    the message the schema gives for it. *)
Theorem safeParse_reports_issues
  (b : Body) (oid : string) (errors : list Issue) :
  safeParse b oid = inr errors ->
  errors <> []
  /\ subseq (map path errors) schema_keys = true
  /\ forall k get m,
       In (k, get, m) (required_texts ++ required_numbers)%list ->
       get b = JUndefined ->
       In {| path := k; message := m |} errors.
Proof.
  intros H. apply safeParse_rejects in H. destruct H as [-> [Hne Hs]].
  repeat split; auto.
  intros k get m Hin Hu. simpl in Hin.
  unfold all_issues. rewrite !in_app_iff.
  repeat (destruct Hin as [Hin | Hin];
          [ injection Hin as <- <- <-; rewrite Hu; simpl; auto 20 | ]).
  destruct Hin.
Qed.

(** A body with nothing but the note. *)
Definition note_only : Body :=
  {| raw_note := JString "tolong cepat";
     raw_destination_location := JUndefined;
     raw_pickup_location := JNull;
     raw_pickup_latitude := JString "7";
     raw_pickup_longitude := JUndefined;
     raw_destination_latitude := JUndefined;
     raw_destination_longitude := JUndefined |}.

Lemma safeParse_reports_issues_witness :
  all_issues note_only "o1" <> []
  /\ subseq (map path (all_issues note_only "o1")) schema_keys = true
  /\ forall k get m,
       In (k, get, m) (required_texts ++ required_numbers)%list ->
       get note_only = JUndefined ->
       In {| path := k; message := m |} (all_issues note_only "o1").
Proof.
  apply (@safeParse_reports_issues note_only "o1"). reflexivity.
Defined.

(** ** Every call of the route *)

(** The three handlers [route.ts] exports, by HTTP method. *)
Inductive Method := M_POST | M_DELETE | M_PATCH.

Definition route (m : Method) : Request -> prog (option Response) :=
  match m with
  | M_POST => POST
  | M_DELETE => DELETE
  | M_PATCH => PATCH
  end.

(** One call: its method, the time it is served at and the request. *)
Record Call := { method : Method; at_time : Z; request : Request }.

Definition serve_one (c : Call) (db : Db) : Db * option Response :=
  call (route (method c)) (at_time c) (request c) db.

(** Calls served one after the other; the store they leave. *)
Definition serve (cs : list Call) (db : Db) : Db :=
  fold_left (fun s c => fst (serve_one c s)) cs db.

(** Who calls: the user of the credential, if there is one. *)
Definition caller (req : Request) : option string :=
  option_map userId (authorization req).

(** What a call may have done to the store. *)
Inductive effect (req : Request) (db : Db) : Db -> Prop :=
| effect_none : effect req db db
| effect_applied (a : Authorization) (d : Details) :
    customer_request req = Some (a, d) ->
    existsb (is_application (userId a) (offer_id req))
      (offer_applicants db) = false ->
    effect req db (applied a d (offer_id req) db)
| effect_withdrawn (a : Authorization) :
    authorization req = Some a ->
    is_customer a = true ->
    effect req db (withdrawn a (offer_id req) db)
| effect_patched (a : Authorization) (d : Details) (e : ApplicantRow) :
    customer_request req = Some (a, d) ->
    In e (offer_applicants db) ->
    is_application (userId a) (offer_id req) e = true ->
    effect req db (patched (id e) d db).

(** [POST] before its first query answers 400, 401, 403 or 500 and
    touches nothing. *)
Lemma call_POST_guarded (now : Z) (req : Request) (db : Db) :
  customer_request req = None ->
  exists r, call POST now req db = (db, Some r)
            /\ forall ok i, r <> respondWithSuccess ok i.
Proof.
  unfold call, try_catch, POST, customer_request.
  destruct (json req) as [b|]; simpl;
    [|intros _; eexists; split; [reflexivity | discriminate]].
  destruct (safeParse b (offer_id req)); simpl;
    [|intros _; eexists; split; [reflexivity | discriminate]].
  destruct (authorization req) as [a|]; simpl;
    [|intros _; eexists; split; [reflexivity | discriminate]].
  destruct (is_customer a); simpl; [discriminate|].
  intros _; eexists; split; [reflexivity | discriminate].
Qed.

Lemma customer_request_caller (req : Request) (a : Authorization)
  (d : Details) :
  customer_request req = Some (a, d) -> caller req = Some (userId a).
Proof.
  intros H. apply customer_request_inv in H. destruct H as [Ha _].
  unfold caller. rewrite Ha. reflexivity.
Qed.

Lemma POST_effect (now : Z) (req : Request) (db db' : Db)
  (r : option Response) :
  call POST now req db = (db', r) -> effect req db db'.
Proof.
  intros H. destruct (customer_request req) as [[a d]|] eqn:Ecr.
  - rewrite (@call_POST_customer now req db a d Ecr) in H.
    destruct (hd_error (filter _ (offers db)));
      [|injection H as <- _; constructor].
    destruct (hd_error (filter _ (offer_applicants db))) eqn:Ea;
      injection H as <- _; [constructor|].
    apply effect_applied; [exact Ecr | now apply hd_error_filter_none].
  - destruct (@call_POST_guarded now req db Ecr) as [r0 [E _]].
    rewrite E in H. injection H as <- _. constructor.
Qed.

Lemma DELETE_effect (now : Z) (req : Request) (db db' : Db)
  (r : option Response) :
  call DELETE now req db = (db', r) -> effect req db db'.
Proof.
  intros H.
  destruct (call_DELETE_guarded now req db)
    as [[a [Hv [Ha Hc]]] | [E | [E | [errs E]]]];
    try (rewrite E in H; injection H as <- _; constructor).
  rewrite (@call_DELETE_customer now req db a Hv Ha Hc) in H.
  destruct (filter _ (offer_applicants db));
    injection H as <- _; [constructor | now apply effect_withdrawn].
Qed.

Lemma PATCH_effect (now : Z) (req : Request) (db db' : Db)
  (r : option Response) :
  call PATCH now req db = (db', r) -> effect req db db'.
Proof.
  intros H.
  destruct (call_PATCH_guarded now req db) as [[a [d [Hv Hcr]]] | [r0 E]].
  - rewrite (@call_PATCH_customer now req db a d Hv Hcr) in H.
    destruct (hd_error (filter _ (offer_applicants db))) as [e|] eqn:Ee;
      injection H as <- _; [|constructor].
    apply hd_error_filter_some in Ee. destruct Ee as [Hin He].
    now apply effect_patched with (a := a).
  - rewrite E in H. injection H as <- _. constructor.
Qed.

Lemma route_effect (m : Method) (now : Z) (req : Request) (db db' : Db)
  (r : option Response) :
  call (route m) now req db = (db', r) -> effect req db db'.
Proof.
  destruct m; simpl;
    [apply POST_effect | apply DELETE_effect | apply PATCH_effect].
Qed.

Lemma serve_one_effect (c : Call) (db : Db) :
  effect (request c) db (fst (serve_one c db)).
Proof.
  unfold serve_one.
  destruct (call (route (method c)) (at_time c) (request c) db)
    as [db' r] eqn:E.
  simpl. eapply route_effect. exact E.
Qed.

(** A property every possible effect keeps is kept by any number of
    calls. *)
Lemma serve_keeps (P : Db -> Prop) :
  (forall req db db', effect req db db' -> P db -> P db') ->
  forall cs db, P db -> P (serve cs db).
Proof.
  intros Hstep cs. induction cs as [|c cs IH]; intros db H; simpl.
  - exact H.
  - apply IH. eapply Hstep; [apply serve_one_effect | exact H].
Qed.

(** ** What the calls keep *)

Lemma NoDup_map_filter {Row Key} (rows : list Row) (key : Row -> Key)
  (keep : Row -> bool) :
  NoDup (map key rows) -> NoDup (map key (filter keep rows)).
Proof.
  intros Hnd. induction rows as [|x rows IH]; simpl; [constructor|].
  inversion Hnd as [|y ys Hnin Hrest]; subst.
  destruct (keep x); simpl; [|now apply IH].
  constructor; [|now apply IH].
  intros Hin. apply Hnin. apply in_map_iff in Hin.
  destruct Hin as [z [Hz Hin]]. apply filter_In in Hin.
  apply in_map_iff. exists z. tauto.
Qed.

Lemma NoDup_map_same {A B} (f : A -> B) (l : list A) (x y : A) :
  NoDup (map f l) -> In x l -> In y l -> f x = f y -> x = y.
Proof.
  induction l as [|z l IH]; simpl; intros H Hx Hy E; [destruct Hx|].
  inversion H as [|? ? Hnin Hnd]; subst.
  destruct Hx as [-> | Hx], Hy as [-> | Hy]; auto.
  - exfalso. apply Hnin. rewrite E. now apply in_map.
  - exfalso. apply Hnin. rewrite <- E. now apply in_map.
Qed.

Lemma existsb_false_filter {A} (f : A -> bool) (l : list A) :
  existsb f l = false ->
  filter f l = [] /\ filter (fun x => negb (f x)) l = l.
Proof.
  induction l as [|x l IH]; simpl; [auto|].
  destruct (f x); simpl; [discriminate|].
  intros H. destruct (IH H) as [-> ->]. auto.
Qed.

Lemma set_details_keeps (i : nat) (d : Details) (r : ApplicantRow) :
  id (set_details i d r) = id r
  /\ applicant_status (set_details i d r) = applicant_status r
  /\ customer (set_details i d r) = customer r
  /\ offer (set_details i d r) = offer r.
Proof. unfold set_details. destruct (id r =? i)%nat; simpl; auto. Qed.

Lemma map_set_details {B} (f : ApplicantRow -> B) (i : nat) (d : Details)
  (l : list ApplicantRow) :
  (forall r, f (set_details i d r) = f r) ->
  map f (map (set_details i d) l) = map f l.
Proof.
  intros H. rewrite map_map. apply map_ext. exact H.
Qed.

Lemma set_offer_status_keeps (oid st : string) (r : OfferRow) :
  o_id (set_offer_status oid st r) = o_id r
  /\ available_until (set_offer_status oid st r) = available_until r.
Proof. unfold set_offer_status. destruct (o_id r =? oid); simpl; auto. Qed.

(** The keys of the applications are distinct and all below the next
    key the store hands out. *)
Definition keys_ok (db : Db) : Prop :=
  Forall (fun r => id r < next_id db) (offer_applicants db)
  /\ NoDup (map id (offer_applicants db)).

(** The pair a unique constraint on the table would be about. *)
Definition pair_of (r : ApplicantRow) : string * string :=
  (customer r, offer r).

Definition one_per_pair (db : Db) : Prop :=
  NoDup (map pair_of (offer_applicants db)).

(** No row of the offer [oid] has the status [available]. *)
Definition closed_for (oid : string) (db : Db) : Prop :=
  forall r, In r (offers db) -> o_id r = oid ->
            offer_status r <> "available".

Lemma effect_keys_ok (req : Request) (db db' : Db) :
  effect req db db' -> keys_ok db -> keys_ok db'.
Proof.
  intros E [Hlt Hnd]. destruct E as [|a d Hcr Hex|a Ha Hc|a d e Hcr Hin He].
  - split; assumption.
  - split; simpl.
    + apply Forall_app. split.
      * eapply Forall_impl; [|exact Hlt]. simpl. intros r Hr. lia.
      * constructor; [simpl; lia | constructor].
    + rewrite map_app. simpl. apply NoDup_app; [exact Hnd | | ].
      * constructor; [intros [] | constructor].
      * intros x Hx [<- | []]. apply in_map_iff in Hx.
        destruct Hx as [r [Hr Hin]].
        rewrite Forall_forall in Hlt. specialize (Hlt r Hin). lia.
  - split; simpl.
    + rewrite Forall_forall in *. intros r Hr.
      apply filter_In in Hr. now apply Hlt.
    + now apply NoDup_map_filter.
  - split; simpl.
    + rewrite Forall_forall in *. intros r Hr. apply in_map_iff in Hr.
      destruct Hr as [r0 [<- Hr0]].
      destruct (set_details_keeps (id e) d r0) as [-> _]. now apply Hlt.
    + rewrite map_set_details; [exact Hnd|].
      intros r. apply set_details_keeps.
Qed.

Lemma effect_one_per_pair (req : Request) (db db' : Db) :
  effect req db db' -> one_per_pair db -> one_per_pair db'.
Proof.
  unfold one_per_pair.
  intros E Hnd. destruct E as [|a d Hcr Hex|a Ha Hc|a d e Hcr Hin He].
  - assumption.
  - simpl. rewrite map_app. simpl. apply NoDup_app; [exact Hnd | | ].
    + constructor; [intros [] | constructor].
    + intros x Hx [<- | []]. apply in_map_iff in Hx.
      destruct Hx as [r [Hr Hin]]. unfold pair_of in Hr.
      injection Hr as Hc Ho.
      assert (existsb (is_application (userId a) (offer_id req))
                (offer_applicants db) = true).
      { apply existsb_exists. exists r. split; [exact Hin|].
        unfold is_application. rewrite Hc, Ho, !String.eqb_refl.
        reflexivity. }
      congruence.
  - simpl. now apply NoDup_map_filter.
  - simpl. rewrite map_set_details; [exact Hnd|].
    intros r. unfold pair_of.
    destruct (set_details_keeps (id e) d r) as [_ [_ [-> ->]]].
    reflexivity.
Qed.

(** A store in which alice has applied to offer [o1], bob to another
    offer, and [o1] is still open. *)
Definition db_open : Db :=
  {| offers := [{| o_id := "o1"; offer_status := "available";
                   available_until := 100%Z |}];
     offer_applicants :=
       [{| id := 0; applicant_status := PENDING; details := sample_details;
           customer := "alice"; offer := "o1" |};
        {| id := 1; applicant_status := ACCEPTED; details := sample_details;
           customer := "bob"; offer := "o2" |}];
     next_id := 2;
     unique_customer_offer := false |}.

(** Four calls on that store: alice applies once more to [o1], bob
    applies to it, alice edits her application and then withdraws it. *)
Definition sample_calls : list Call :=
  [{| method := M_POST; at_time := 50%Z; request := alice_applies |};
   {| method := M_POST; at_time := 51%Z; request := bob_applies |};
   {| method := M_PATCH; at_time := 52%Z; request := alice_edits |};
   {| method := M_DELETE; at_time := 53%Z; request := alice_withdraws |}].

(** What the four calls are answered: the duplicate Conflict, a success
    with a new key, no answer for the edit, a success for the
    withdraw. *)
Lemma sample_calls_answers :
  snd (serve_one {| method := M_POST; at_time := 50%Z;
                    request := alice_applies |} db_open)
  = Some (respondWithConflict MSG_ALREADY_APPLIED)
  /\ snd (serve_one {| method := M_POST; at_time := 51%Z;
                       request := bob_applies |} db_open)
     = Some (respondWithSuccess true 2)
  /\ map (fun r => (id r, customer r, offer r))
       (offer_applicants (serve sample_calls db_open))
     = [(1, "bob", "o2"); (2, "bob", "o1")].
Proof. repeat split; reflexivity. Qed.

(** Served one after the other, the calls of the route keep the keys of
    the applications distinct, and below the next key of the store. *)
Theorem serve_keeps_keys (cs : list Call) (db : Db) :
  keys_ok db -> keys_ok (serve cs db).
Proof. apply serve_keeps. exact effect_keys_ok. Qed.

Lemma serve_keeps_keys_witness :
  keys_ok db_open
  /\ keys_ok (serve sample_calls db_open)
  /\ map id (offer_applicants db_open) = [0; 1]
  /\ map id (offer_applicants (serve sample_calls db_open)) = [1; 2]
  /\ next_id (serve sample_calls db_open) = 3.
Proof.
  assert (H : keys_ok db_open).
  { split; simpl.
    - repeat constructor.
    - repeat constructor; simpl; intuition discriminate. }
  split; [exact H|].
  split; [exact (@serve_keeps_keys sample_calls db_open H)|].
  repeat split; reflexivity.
Defined.

(** Served one after the other, the calls of the route never leave two
    applications of one customer on one offer, whether the table has a
    unique constraint or not. *)
Theorem serve_keeps_one_per_pair (cs : list Call) (db : Db) :
  one_per_pair db ->
  one_per_pair (serve cs db)
  /\ forall x y,
       In x (offer_applicants (serve cs db)) ->
       In y (offer_applicants (serve cs db)) ->
       customer x = customer y -> offer x = offer y -> x = y.
Proof.
  intros H.
  assert (H' : one_per_pair (serve cs db))
    by (revert H; apply serve_keeps; exact effect_one_per_pair).
  split; [exact H'|].
  intros x y Hx Hy Hc Ho.
  apply (NoDup_map_same pair_of _ x y H' Hx Hy).
  unfold pair_of. congruence.
Qed.

Lemma serve_keeps_one_per_pair_witness :
  one_per_pair db_open
  /\ (one_per_pair (serve sample_calls db_open)
      /\ forall x y,
           In x (offer_applicants (serve sample_calls db_open)) ->
           In y (offer_applicants (serve sample_calls db_open)) ->
           customer x = customer y -> offer x = offer y -> x = y)
  /\ map pair_of (offer_applicants db_open)
     = [("alice", "o1"); ("bob", "o2")]
  /\ snd (serve_one {| method := M_POST; at_time := 50%Z;
                       request := alice_applies |} db_open)
     = Some (respondWithConflict MSG_ALREADY_APPLIED)
  /\ map pair_of (offer_applicants (serve sample_calls db_open))
     = [("bob", "o2"); ("bob", "o1")].
Proof.
  assert (H : one_per_pair db_open).
  { unfold one_per_pair. simpl.
    repeat constructor; simpl; intuition discriminate. }
  split; [exact H|].
  split; [exact (@serve_keeps_one_per_pair sample_calls db_open H)|].
  repeat split; reflexivity.
Defined.

Lemma effect_offers (req : Request) (db db' : Db) :
  effect req db db' ->
  map o_id (offers db') = map o_id (offers db)
  /\ map available_until (offers db') = map available_until (offers db)
  /\ forall oid, closed_for oid db -> closed_for oid db'.
Proof.
  intros E. destruct E as [|a d Hcr Hex|a Ha Hc|a d e Hcr Hin He];
    simpl; auto.
  repeat split.
  - rewrite map_map. apply map_ext. intros r.
    apply set_offer_status_keeps.
  - rewrite map_map. apply map_ext. intros r.
    apply set_offer_status_keeps.
  - intros oid Hcl r Hr Hid. simpl in Hr. apply in_map_iff in Hr.
    destruct Hr as [r0 [<- Hr0]]. revert Hid. unfold set_offer_status.
    destruct (o_id r0 =? offer_id req); simpl.
    + intros _. discriminate.
    + intros Hid. now apply Hcl.
Qed.

(** No sequence of calls of the route adds or removes an offer or moves
    its deadline, and none gives the status [available] back to an offer
    that has lost it: applying closes an offer, and neither withdrawing
    nor editing opens it again. *)
Theorem serve_never_reopens (cs : list Call) (db : Db) :
  map o_id (offers (serve cs db)) = map o_id (offers db)
  /\ map available_until (offers (serve cs db))
     = map available_until (offers db)
  /\ forall oid, closed_for oid db -> closed_for oid (serve cs db).
Proof.
  apply (@serve_keeps
           (fun s => map o_id (offers s) = map o_id (offers db)
                     /\ map available_until (offers s)
                        = map available_until (offers db)
                     /\ forall oid, closed_for oid db -> closed_for oid s)).
  - intros req s s' E [H1 [H2 H3]].
    destruct (effect_offers E) as [E1 [E2 E3]].
    repeat split; try congruence. intros oid Hcl. apply E3, H3, Hcl.
  - repeat split; auto.
Qed.

(** A call that comes without a credential, or with one whose role is
    not [customer], changes nothing in the store and is never answered
    with a success, whatever its method. *)
Theorem only_customers_write (m : Method) (now : Z) (req : Request)
  (db : Db) :
  (forall a, authorization req = Some a -> is_customer a = false) ->
  fst (call (route m) now req db) = db
  /\ forall ok i,
       snd (call (route m) now req db) <> Some (respondWithSuccess ok i).
Proof.
  intros Hno.
  assert (Hcr : customer_request req = None).
  { destruct (customer_request req) as [[a d]|] eqn:E; [|reflexivity].
    apply customer_request_inv in E. destruct E as [Ha [Hc _]].
    rewrite (Hno a Ha) in Hc. discriminate. }
  destruct m; simpl.
  - destruct (@call_POST_guarded now req db Hcr) as [r [E Hr]].
    rewrite E. simpl. split; [reflexivity|].
    intros ok i H. injection H as H. now apply (Hr ok i).
  - destruct (call_DELETE_guarded now req db)
      as [[a [Hv [Ha Hc]]] | [E | [E | [errs E]]]];
      try (rewrite E; simpl; split; [reflexivity | discriminate]).
    rewrite (Hno a Ha) in Hc. discriminate.
  - destruct (call_PATCH_guarded now req db) as [[a [d [Hv E]]] | [r E]];
      [congruence|].
    rewrite E. simpl. split; [reflexivity|].
    intros ok i H. injection H as ->.
    revert E. unfold call, try_catch, PATCH.
    destruct (validate_offerId (offer_id req)); [|discriminate].
    destruct (authorization req) as [a|] eqn:Ha; [|discriminate].
    destruct (json req) as [b|]; simpl; [|discriminate].
    destruct (safeParse b (offer_id req)); [|discriminate].
    rewrite (Hno a eq_refl). simpl. discriminate.
Qed.

Definition freelancer_applies : Request :=
  {| offer_id := "o1";
     authorization := Some {| userId := "dina"; role := "freelancer" |};
     json := Some (body_of sample_details) |}.

Lemma only_customers_write_witness :
  fst (call (route M_POST) 50%Z freelancer_applies (db0 true)) = db0 true
  /\ forall ok i,
       snd (call (route M_POST) 50%Z freelancer_applies (db0 true))
       <> Some (respondWithSuccess ok i).
Proof.
  apply (@only_customers_write M_POST 50%Z freelancer_applies (db0 true)).
  simpl. intros a H. injection H as <-. reflexivity.
Defined.

Lemma filter_filter_weaker {A} (p q : A -> bool) (l : list A) :
  (forall x, p x = true -> q x = true) ->
  filter p (filter q l) = filter p l.
Proof.
  intros H. induction l as [|x l IH]; simpl; [reflexivity|].
  destruct (q x) eqn:Eq; simpl.
  - destruct (p x); [f_equal|]; exact IH.
  - destruct (p x) eqn:Ep; [|exact IH].
    rewrite (H x Ep) in Eq. discriminate.
Qed.

Lemma filter_map_fixed {A} (p : A -> bool) (f : A -> A) (l : list A) :
  (forall x, In x l -> p (f x) = p x /\ (p x = true -> f x = x)) ->
  filter p (map f l) = filter p l.
Proof.
  induction l as [|x l IH]; simpl; intros H; [reflexivity|].
  destruct (H x (or_introl eq_refl)) as [H1 H2]. rewrite H1.
  rewrite IH by (intros y Hy; apply H; now right).
  destruct (p x); [rewrite H2|]; reflexivity.
Qed.

Lemma is_application_true (c o : string) (r : ApplicantRow) :
  is_application c o r = true <-> customer r = c /\ offer r = o.
Proof.
  unfold is_application. rewrite andb_true_iff, !String.eqb_eq. tauto.
Qed.

(** Applications are the caller's to touch: with distinct keys in the
    table, a call leaves the applications of every customer other than
    the caller exactly as they were, whatever its method and outcome. *)
Theorem others_applications_untouched
  (m : Method) (now : Z) (req : Request) (db db' : Db)
  (r : option Response) (c : string) :
  NoDup (map id (offer_applicants db)) ->
  caller req <> Some c ->
  call (route m) now req db = (db', r) ->
  filter (fun x => customer x =? c) (offer_applicants db')
  = filter (fun x => customer x =? c) (offer_applicants db).
Proof.
  intros Hnd Hc H. apply route_effect in H.
  destruct H as [|a d Hcr Hex|a Ha Hcu|a d e Hcr Hin He].
  - reflexivity.
  - simpl. rewrite filter_app. simpl.
    rewrite (@customer_request_caller req a d Hcr) in Hc.
    destruct (userId a =? c) eqn:E.
    + apply String.eqb_eq in E. congruence.
    + apply app_nil_r.
  - simpl. apply filter_filter_weaker. intros x Hx.
    unfold caller in Hc. rewrite Ha in Hc. simpl in Hc.
    apply String.eqb_eq in Hx. unfold is_application.
    destruct (customer x =? userId a) eqn:E; [|reflexivity].
    apply String.eqb_eq in E. congruence.
  - simpl. rewrite (@customer_request_caller req a d Hcr) in Hc.
    apply is_application_true in He. destruct He as [He _].
    apply filter_map_fixed. intros x Hx.
    destruct (set_details_keeps (id e) d x) as [_ [_ [-> _]]].
    split; [reflexivity|]. intros Hxc. apply String.eqb_eq in Hxc.
    unfold set_details. destruct (id x =? id e)%nat eqn:E; [|reflexivity].
    apply Nat.eqb_eq in E.
    assert (x = e) by (apply (NoDup_map_same id _ x e Hnd Hx Hin E)).
    subst x. congruence.
Qed.

(** The sample store with alice's application and one of bob's on
    another offer. *)
Definition db_two : Db :=
  {| offers := [{| o_id := "o1"; offer_status := "on_progress";
                   available_until := 100%Z |};
                {| o_id := "o2"; offer_status := "on_progress";
                   available_until := 100%Z |}];
     offer_applicants :=
       [{| id := 0; applicant_status := PENDING; details := sample_details;
           customer := "alice"; offer := "o1" |};
        {| id := 1; applicant_status := ACCEPTED; details := sample_details;
           customer := "bob"; offer := "o2" |}];
     next_id := 2;
     unique_customer_offer := true |}.

Lemma others_applications_untouched_witness :
  filter (fun x => customer x =? "bob")
    (offer_applicants (patched 0 other_details db_two))
  = filter (fun x => customer x =? "bob") (offer_applicants db_two).
Proof.
  apply (@others_applications_untouched M_PATCH 50%Z alice_edits db_two
           (patched 0 other_details db_two) None "bob").
  - simpl. repeat constructor; simpl; intuition discriminate.
  - discriminate.
  - reflexivity.
Defined.

(** ** Applying, editing, withdrawing: how the calls compose *)

(** When [POST] succeeds and what it leaves otherwise: it answers success
    exactly for a request that passes the guards on an offer with an open
    row and no application of the caller yet; the success carries the key
    the store handed out; and every other answer comes with the store
    untouched. *)
Theorem POST_succeeds_iff (now : Z) (req : Request) (db : Db) :
  ((exists ok i,
      snd (call POST now req db) = Some (respondWithSuccess ok i))
   <-> exists a d,
         customer_request req = Some (a, d)
         /\ existsb (is_open_offer (offer_id req) now) (offers db) = true
         /\ existsb (is_application (userId a) (offer_id req))
              (offer_applicants db) = false)
  /\ (forall ok i,
        snd (call POST now req db) = Some (respondWithSuccess ok i) ->
        ok = true /\ i = next_id db)
  /\ ((forall ok i,
         snd (call POST now req db) <> Some (respondWithSuccess ok i)) ->
      fst (call POST now req db) = db).
Proof.
  destruct (call POST now req db) as [db' r] eqn:E. simpl.
  split; [split|split].
  - intros [ok [i ->]]. apply call_POST_success in E.
    destruct E as [a [d [H1 [H2 [H3 _]]]]]. eauto.
  - intros [a [d [Hcr [Ho Ha]]]].
    rewrite (@call_POST_customer now req db a d Hcr) in E.
    destruct (hd_error (filter _ (offers db))) eqn:Eo;
      [|apply hd_error_filter_none in Eo; congruence].
    destruct (hd_error (filter _ (offer_applicants db))) eqn:Ea.
    + apply hd_error_filter_some in Ea. destruct Ea as [Hin Hf].
      assert (existsb (is_application (userId a) (offer_id req))
                (offer_applicants db) = true)
        by (apply existsb_exists; eauto).
      congruence.
    + injection E as _ <-. eauto.
  - intros ok i ->. apply call_POST_success in E.
    destruct E as [a [d [_ [_ [_ [_ [-> ->]]]]]]]. auto.
  - intros Hno. pose proof (POST_effect _ _ _ E) as Hef.
    destruct (customer_request req) as [[a d]|] eqn:Ecr.
    + rewrite (@call_POST_customer now req db a d Ecr) in E.
      destruct (hd_error (filter _ (offers db)));
        [|injection E as <- _; reflexivity].
      destruct (hd_error (filter _ (offer_applicants db)));
        injection E as <- <-; [reflexivity|].
      exfalso. eapply Hno. reflexivity.
    + destruct (@call_POST_guarded now req db Ecr) as [r0 [E0 _]].
      congruence.
Qed.

Lemma filter_map_commute {A} (p : A -> bool) (f : A -> A) (l : list A) :
  (forall x, p (f x) = p x) ->
  filter p (map f l) = map f (filter p l).
Proof.
  intros H. induction l as [|x l IH]; simpl; [reflexivity|].
  rewrite H. destruct (p x); simpl; [f_equal|]; exact IH.
Qed.

Lemma is_application_set_details (c o : string) (i : nat) (d : Details)
  (r : ApplicantRow) :
  is_application c o (set_details i d r) = is_application c o r.
Proof.
  unfold is_application.
  destruct (set_details_keeps i d r) as [_ [_ [-> ->]]]. reflexivity.
Qed.

(** The applications of [a] on [oid] once [a] has applied: the new row
    alone, and the rest are the rows from before. *)
Lemma applied_rows (a : Authorization) (d : Details) (oid : string)
  (db : Db) :
  existsb (is_application (userId a) oid) (offer_applicants db) = false ->
  filter (is_application (userId a) oid)
    (offer_applicants (applied a d oid db))
  = [{| id := next_id db; applicant_status := PENDING; details := d;
        customer := userId a; offer := oid |}]
  /\ filter (fun x => negb (is_application (userId a) oid x))
       (offer_applicants (applied a d oid db))
     = offer_applicants db.
Proof.
  intros H. apply existsb_false_filter in H. destruct H as [H1 H2].
  simpl. rewrite !filter_app, H1, H2. simpl.
  unfold is_application. simpl. rewrite !String.eqb_refl. simpl.
  split; [reflexivity | apply app_nil_r].
Qed.

(** Applying and then withdrawing: the withdraw of the same caller on
    the same offer succeeds with the key the apply returned and leaves
    the applications exactly as they were before the apply; the offer
    though stays closed, and whoever applies to it next, the caller
    included, gets the offer-unavailable Conflict. *)
Theorem apply_then_withdraw
  (now now' : Z) (req req' : Request) (db db1 : Db) (ok : bool) (i : nat) :
  call POST now req db = (db1, Some (respondWithSuccess ok i)) ->
  offer_id req' = offer_id req ->
  authorization req' = authorization req ->
  exists db2,
    call DELETE now' req' db1 = (db2, Some (respondWithSuccess true i))
    /\ offer_applicants db2 = offer_applicants db
    /\ closed_for (offer_id req) db2
    /\ forall now'' reqB aB dB,
         customer_request reqB = Some (aB, dB) ->
         offer_id reqB = offer_id req ->
         call POST now'' reqB db2
         = (db2, Some (respondWithConflict MSG_OFFER_UNAVAILABLE)).
Proof.
  intros H Hid Hau. apply call_POST_success in H.
  destruct H as [a [d [Hcr [_ [Hex [-> [-> _]]]]]]].
  pose proof (customer_request_inv req Hcr) as [Ha [Hc [b [Hb Hp]]]].
  pose proof (applied_rows a d (offer_id req) db Hex) as [R1 R2].
  exists (withdrawn a (offer_id req) (applied a d (offer_id req) db)).
  split; [|split; [|split]].
  - rewrite (@call_DELETE_customer now' req'
               (applied a d (offer_id req) db) a).
    + rewrite Hid, R1. reflexivity.
    + rewrite Hid. eapply safeParse_validates_offer_id. exact Hp.
    + congruence.
    + exact Hc.
  - simpl. simpl in R2. exact R2.
  - intros r Hr Hrid. simpl in Hr. apply in_map_iff in Hr.
    destruct Hr as [r0 [<- _]]. revert Hrid. unfold set_offer_status.
    destruct (o_id r0 =? offer_id req) eqn:E; simpl; [discriminate|].
    intros Hrid. apply String.eqb_neq in E. contradiction.
  - intros now'' reqB aB dB HB HidB.
    rewrite (@call_POST_customer now'' reqB _ aB dB HB), HidB.
    change (offers (withdrawn a (offer_id req)
                      (applied a d (offer_id req) db)))
      with (offers (applied a d (offer_id req) db)).
    rewrite applied_closes_offer. reflexivity.
Qed.

Lemma apply_then_withdraw_witness :
  exists db2,
    call DELETE 60%Z alice_withdraws (db1 true)
    = (db2, Some (respondWithSuccess true 0))
    /\ offer_applicants db2 = offer_applicants (db0 true)
    /\ closed_for (offer_id alice_applies) db2
    /\ forall now'' reqB aB dB,
         customer_request reqB = Some (aB, dB) ->
         offer_id reqB = offer_id alice_applies ->
         call POST now'' reqB db2
         = (db2, Some (respondWithConflict MSG_OFFER_UNAVAILABLE)).
Proof.
  apply (@apply_then_withdraw 50%Z 60%Z alice_applies alice_withdraws
           (db0 true) (db1 true) true 0); reflexivity.
Defined.

(** Withdrawing twice: after a withdraw that succeeded, the same request
    again finds nothing to delete and is answered ServerError. *)
Theorem withdraw_twice
  (now now' : Z) (req : Request) (db db1 : Db) (ok : bool) (i : nat) :
  call DELETE now req db = (db1, Some (respondWithSuccess ok i)) ->
  call DELETE now' req db1 = (db1, Some respondWithServerError).
Proof.
  intros H.
  destruct (call_DELETE_guarded now req db)
    as [[a [Hv [Ha Hc]]] | [E | [E | [errs E]]]];
    try (rewrite E in H; discriminate).
  rewrite (@call_DELETE_customer now req db a Hv Ha Hc) in H.
  destruct (filter _ (offer_applicants db)); [discriminate|].
  injection H as <- _ _.
  rewrite (@call_DELETE_customer now' req _ a Hv Ha Hc). simpl.
  replace (filter _ (filter _ (offer_applicants db)))
    with (@nil ApplicantRow); [reflexivity|].
  symmetry. apply filter_none_iff. intros x Hx.
  apply filter_In in Hx. destruct Hx as [_ Hx].
  now apply negb_true_iff in Hx.
Qed.

Lemma withdraw_twice_witness :
  call DELETE 61%Z alice_withdraws
    (withdrawn {| userId := "alice"; role := "customer" |} "o1" db_accepted)
  = (withdrawn {| userId := "alice"; role := "customer" |} "o1" db_accepted,
     Some respondWithServerError).
Proof.
  apply (@withdraw_twice 60%Z 61%Z alice_withdraws db_accepted _ true 0).
  reflexivity.
Defined.

Lemma set_details_twice (i : nat) (d1 d2 : Details) (r : ApplicantRow) :
  set_details i d2 (set_details i d1 r) = set_details i d2 r.
Proof.
  unfold set_details. destruct (id r =? i)%nat eqn:E; simpl; rewrite E;
    reflexivity.
Qed.

Lemma patched_twice (i : nat) (d1 d2 : Details) (db : Db) :
  patched i d2 (patched i d1 db) = patched i d2 db.
Proof.
  unfold patched. simpl. f_equal. rewrite map_map. apply map_ext.
  intros r. apply set_details_twice.
Qed.

(** The row [r] with the details [d]. *)
Definition with_details (d : Details) (r : ApplicantRow) : ApplicantRow :=
  {| id := id r; applicant_status := applicant_status r; details := d;
     customer := customer r; offer := offer r |}.

(** With one application per customer and offer and distinct keys, the
    lookup of [PATCH] has no choice to make, whatever the order in which
    the store returns rows: the update through the key it found rewrites
    the caller's application on the offer and no other row. *)
Lemma patched_is_the_callers (db : Db) (a : Authorization) (oid : string)
  (e : ApplicantRow) (d : Details) :
  one_per_pair db ->
  NoDup (map id (offer_applicants db)) ->
  In e (offer_applicants db) ->
  is_application (userId a) oid e = true ->
  offer_applicants (patched (id e) d db)
  = map (fun r => if is_application (userId a) oid r
                  then with_details d r else r)
      (offer_applicants db).
Proof.
  intros Hpair Hkeys Hin He. simpl. apply map_ext_in. intros r Hr.
  unfold set_details.
  destruct (id r =? id e)%nat eqn:Ei;
    destruct (is_application (userId a) oid r) eqn:Er; try reflexivity.
  - apply Nat.eqb_eq in Ei.
    assert (r = e) by (apply (NoDup_map_same id _ r e Hkeys Hr Hin Ei)).
    subst r. congruence.
  - apply is_application_true in He. apply is_application_true in Er.
    assert (r = e).
    { apply (NoDup_map_same pair_of _ r e Hpair Hr Hin).
      unfold pair_of. destruct He as [-> ->], Er as [-> ->]. reflexivity. }
    subst r. rewrite Nat.eqb_refl in Ei. discriminate.
Qed.

(** Editing twice, on a table with one application per customer and
    offer and distinct keys: whatever an edit has written, a later edit
    of the same caller on the same offer that passes the guards ends
    like the first without an answer and leaves the store it would have
    left alone; the caller's application has the details of the last
    edit and every other row is as it was before both. *)
Theorem edit_twice_last_wins
  (now now' : Z) (req1 req2 : Request) (db db1 : Db)
  (a : Authorization) (d2 : Details) :
  one_per_pair db ->
  NoDup (map id (offer_applicants db)) ->
  call PATCH now req1 db = (db1, None) ->
  customer_request req2 = Some (a, d2) ->
  offer_id req2 = offer_id req1 ->
  authorization req2 = authorization req1 ->
  exists db2,
    call PATCH now' req2 db1 = (db2, None)
    /\ call PATCH now' req2 db = (db2, None)
    /\ offer_applicants db2
       = map (fun r => if is_application (userId a) (offer_id req1) r
                       then with_details d2 r else r)
           (offer_applicants db)
    /\ offers db2 = offers db.
Proof.
  intros Hpair Hkeys H Hcr2 Hid Hau.
  destruct (call_PATCH_guarded now req1 db) as [[a1 [d1 [Hv Hcr]]] | [r E]];
    [|rewrite E in H; discriminate].
  rewrite (@call_PATCH_customer now req1 db a1 d1 Hv Hcr) in H.
  destruct (hd_error (filter _ (offer_applicants db))) as [e|] eqn:Ee;
    [|discriminate].
  injection H as <-.
  pose proof (customer_request_inv req1 Hcr) as [Ha [Hc _]].
  pose proof (customer_request_inv req2 Hcr2) as [Ha2 _].
  assert (a1 = a) by congruence. subst a1.
  assert (Hv2 : validate_offerId (offer_id req2) = []) by congruence.
  pose proof (hd_error_filter_some _ _ Ee) as [Hin He].
  exists (patched (id e) d2 db).
  rewrite (@call_PATCH_customer now' req2 db a d2 Hv2 Hcr2).
  rewrite (@call_PATCH_customer now' req2 _ a d2 Hv2 Hcr2).
  rewrite Hid, Ee. simpl offer_applicants at 1.
  rewrite filter_map_commute
    by (intros x; apply is_application_set_details).
  destruct (filter (is_application (userId a) (offer_id req1))
              (offer_applicants db)) as [|e' rest]; [discriminate|].
  injection Ee as ->. simpl hd_error. cbv iota.
  destruct (set_details_keeps (id e) d1 e) as [-> _].
  rewrite patched_twice.
  repeat split.
  now apply patched_is_the_callers.
Qed.

Lemma edit_twice_last_wins_witness :
  exists db2,
    call PATCH 61%Z (request_of "alice" "o1" sample_details)
      (patched 0 other_details db_two) = (db2, None)
    /\ call PATCH 61%Z (request_of "alice" "o1" sample_details) db_two
       = (db2, None)
    /\ offer_applicants db2
       = map (fun r => if is_application
                            (userId {| userId := "alice";
                                       role := "customer" |})
                            (offer_id alice_edits) r
                       then with_details sample_details r else r)
           (offer_applicants db_two)
    /\ offers db2 = offers db_two.
Proof.
  apply (@edit_twice_last_wins 60%Z 61%Z alice_edits
           (request_of "alice" "o1" sample_details) db_two
           (patched 0 other_details db_two)
           {| userId := "alice"; role := "customer" |} sample_details);
    try reflexivity.
  - unfold one_per_pair. simpl.
    repeat constructor; simpl; intuition discriminate.
  - simpl. repeat constructor; simpl; intuition discriminate.
Defined.

(** [PATCH] looks neither at the offer nor at the clock nor at the
    status of the application.  A request that passes the guards from a
    caller with an application on the offer is always carried out: the
    update runs on an application of the caller on this offer, which
    gets the details of the request and keeps its status, and the call
    ends without an answer.  When the caller has one application per
    offer, that is the application [r] itself, whatever its status.  And
    on any store with the same applications, whatever its offers and
    the time, the call gives the same answer and leaves the same
    applications. *)
Theorem edit_ignores_offer_and_time
  (now : Z) (req : Request) (db : Db) (a : Authorization) (d : Details)
  (r : ApplicantRow) :
  customer_request req = Some (a, d) ->
  In r (offer_applicants db) ->
  customer r = userId a ->
  offer r = offer_id req ->
  (exists e,
     In e (offer_applicants db)
     /\ customer e = userId a /\ offer e = offer_id req
     /\ call PATCH now req db = (patched (id e) d db, None)
     /\ In (with_details d e) (offer_applicants (patched (id e) d db)))
  /\ (one_per_pair db ->
      In (with_details d r) (offer_applicants (fst (call PATCH now req db))))
  /\ map applicant_status (offer_applicants (fst (call PATCH now req db)))
     = map applicant_status (offer_applicants db)
  /\ forall (now2 : Z) (dbx : Db),
       offer_applicants dbx = offer_applicants db ->
       snd (call PATCH now req db) = snd (call PATCH now2 req dbx)
       /\ offer_applicants (fst (call PATCH now req db))
          = offer_applicants (fst (call PATCH now2 req dbx)).
Proof.
  intros Hcr Hin Hrc Hro.
  pose proof (customer_request_inv req Hcr) as [_ [_ [b [_ Hp]]]].
  pose proof (safeParse_validates_offer_id _ _ Hp) as Hv.
  assert (Hr : is_application (userId a) (offer_id req) r = true)
    by (apply is_application_true; auto).
  assert (He : exists e,
             hd_error (filter (is_application (userId a) (offer_id req))
                         (offer_applicants db)) = Some e).
  { destruct (hd_error (filter _ (offer_applicants db))) eqn:E; [eauto|].
    apply hd_error_filter_none in E.
    assert (existsb (is_application (userId a) (offer_id req))
              (offer_applicants db) = true)
      by (apply existsb_exists; eauto).
    congruence. }
  destruct He as [e He].
  pose proof (hd_error_filter_some _ _ He) as [Hein Hea].
  pose proof (proj1 (is_application_true _ _ _) Hea) as [Hec Heo].
  assert (Hcall : call PATCH now req db = (patched (id e) d db, None)).
  { rewrite (@call_PATCH_customer now req db a d Hv Hcr), He.
    reflexivity. }
  assert (Hnew : In (with_details d e)
                   (offer_applicants (patched (id e) d db))).
  { simpl. apply in_map_iff. exists e. split; [|exact Hein].
    unfold set_details. rewrite Nat.eqb_refl. reflexivity. }
  split; [exists e; auto|]. split; [|split].
  - intros Hpair. rewrite Hcall. simpl fst.
    assert (r = e).
    { apply (NoDup_map_same pair_of _ r e Hpair Hin Hein).
      unfold pair_of. congruence. }
    subst r. exact Hnew.
  - rewrite Hcall. simpl. apply map_set_details.
    intros x. apply set_details_keeps.
  - intros now2 dbx Hsame.
    rewrite Hcall.
    rewrite (@call_PATCH_customer now2 req dbx a d Hv Hcr), Hsame, He.
    simpl. rewrite Hsame. auto.
Qed.

(** The sample store after the freelancer has accepted alice, with the
    offer's row gone. *)
Definition db_accepted_no_offer : Db :=
  {| offers := [];
     offer_applicants := offer_applicants db_accepted;
     next_id := 1;
     unique_customer_offer := true |}.

Lemma edit_ignores_offer_and_time_witness :
  applicant_status alice_accepted = ACCEPTED
  /\ (exists e,
        In e (offer_applicants db_accepted)
        /\ customer e = "alice" /\ offer e = "o1"
        /\ call PATCH 500%Z alice_edits db_accepted
           = (patched (id e) other_details db_accepted, None)
        /\ In (with_details other_details e)
             (offer_applicants (patched (id e) other_details db_accepted)))
  /\ In (with_details other_details alice_accepted)
       (offer_applicants (fst (call PATCH 500%Z alice_edits db_accepted)))
  /\ snd (call PATCH 500%Z alice_edits db_accepted)
     = snd (call PATCH 50%Z alice_edits db_accepted_no_offer).
Proof.
  destruct (@edit_ignores_offer_and_time 500%Z alice_edits db_accepted
              {| userId := "alice"; role := "customer" |} other_details
              alice_accepted)
    as [H1 [H2 [_ H4]]]; try reflexivity.
  - simpl. left. reflexivity.
  - split; [reflexivity|]. split; [exact H1|]. split.
    + apply H2. unfold one_per_pair. simpl. repeat constructor.
      simpl. intuition.
    + apply (H4 50%Z db_accepted_no_offer). reflexivity.
Defined.

(** Applying and then editing: with the keys of the table below the
    store's next key, the edit of the same caller on the same offer
    finds the application the apply created and rewrites that row only;
    the table is the one from before the apply followed by that one row,
    still PENDING, with the details of the edit. *)
Theorem apply_then_edit
  (now now' : Z) (req req' : Request) (db db1 : Db) (ok : bool) (i : nat)
  (a : Authorization) (d' : Details) :
  Forall (fun r => id r < next_id db) (offer_applicants db) ->
  call POST now req db = (db1, Some (respondWithSuccess ok i)) ->
  customer_request req' = Some (a, d') ->
  offer_id req' = offer_id req ->
  authorization req' = authorization req ->
  exists db2,
    call PATCH now' req' db1 = (db2, None)
    /\ offer_applicants db2
       = (offer_applicants db
          ++ [{| id := i; applicant_status := PENDING; details := d';
                 customer := userId a; offer := offer_id req |}])%list
    /\ offers db2 = offers db1.
Proof.
  intros Hlt H Hcr' Hid Hau. apply call_POST_success in H.
  destruct H as [a0 [d [Hcr [_ [Hex [-> [-> _]]]]]]].
  pose proof (customer_request_inv req Hcr) as [Ha [Hc [b [Hb Hp]]]].
  pose proof (customer_request_inv req' Hcr') as [Ha' [_ [b' [Hb' Hp']]]].
  assert (a0 = a) by congruence. subst a0.
  pose proof (applied_rows a d (offer_id req) db Hex) as [R1 _].
  exists (patched (next_id db) d' (applied a d (offer_id req) db)).
  rewrite (@call_PATCH_customer now' req' _ a d'
             (safeParse_validates_offer_id _ _ Hp') Hcr').
  rewrite Hid, R1. simpl. repeat split.
  rewrite map_app. simpl. f_equal.
  - rewrite <- (map_id (offer_applicants db)) at 2.
    apply map_ext_in. intros r Hr. unfold set_details.
    rewrite Forall_forall in Hlt. specialize (Hlt r Hr).
    destruct (id r =? next_id db)%nat eqn:E; [|reflexivity].
    apply Nat.eqb_eq in E. lia.
  - unfold set_details. simpl. rewrite Nat.eqb_refl. reflexivity.
Qed.

Lemma apply_then_edit_witness :
  exists db2,
    call PATCH 60%Z alice_edits (db1 true) = (db2, None)
    /\ offer_applicants db2
       = (offer_applicants (db0 true)
          ++ [{| id := 0; applicant_status := PENDING;
                 details := other_details;
                 customer := userId {| userId := "alice";
                                       role := "customer" |};
                 offer := offer_id alice_applies |}])%list
    /\ offers db2 = offers (db1 true).
Proof.
  apply (@apply_then_edit 50%Z 60%Z alice_applies alice_edits (db0 true)
           (db1 true) true 0 {| userId := "alice"; role := "customer" |}
           other_details);
    try reflexivity.
  simpl. constructor.
Defined.

(** ** Calls in flight together *)

(** The program ends after at most [n] storage calls, whatever they
    return. *)
Fixpoint ends_within {R} (n : nat) (p : prog R) : Prop :=
  match p with
  | Return _ => True
  | Raise => True
  | Await q k =>
      match n with
      | 0 => False
      | S n' => forall x, ends_within n' (k x)
      end
  end.

(** How a program has ended, if it has. *)
Definition result_of {R} (p : prog R) : option (result R) :=
  match p with
  | Return r => Some (Returns r)
  | Raise => Some Throws
  | Await _ _ => None
  end.

(** What [try_catch] makes of the end of a handler. *)
Definition caught (res : result (option Response)) : option Response :=
  match res with
  | Returns r => r
  | Throws => Some respondWithServerError
  end.

Lemma step_ends_within {R} (now : Z) (n : nat) (p : prog R) (db : Db) :
  ends_within (S n) p -> ends_within n (snd (step now p db)).
Proof.
  destruct p as [r| |X q k]; simpl; intros H.
  - destruct n; exact I.
  - destruct n; exact I.
  - destruct (exec q now db) as [db' [x|]]; simpl; [apply H|].
    destruct n; exact I.
Qed.

Lemma handlers_end_within_4 (m : Method) (req : Request) :
  ends_within 4 (route m req).
Proof.
  destruct m; simpl; unfold POST, DELETE, PATCH.
  - destruct (json req) as [b|]; [|exact I].
    destruct (safeParse b (offer_id req)); [|exact I].
    destruct (authorization req) as [a|]; [|exact I].
    destruct (negb (is_customer a)); [exact I|].
    simpl. intros [o|]; [|exact I]. intros [e|]; [exact I|].
    intros [i|]; [|exact I]. intros _. exact I.
  - destruct (validate_offerId (offer_id req)); [|exact I].
    destruct (authorization req) as [a|]; [|exact I].
    destruct (negb (is_customer a)); [exact I|].
    simpl. intros [i|]; exact I.
  - destruct (validate_offerId (offer_id req)); [|exact I].
    destruct (authorization req) as [a|]; [|exact I].
    destruct (json req) as [b|]; [|exact I].
    destruct (safeParse b (offer_id req)); [|exact I].
    destruct (negb (is_customer a)); [exact I|].
    simpl. intros [e|]; [|exact I]. intros l. exact I.
Qed.

Lemma interleave_app {R} (now : Z) (s1 s2 : list bool) (p1 p2 : prog R)
  (db : Db) :
  interleave now (s1 ++ s2) p1 p2 db
  = let '(db', (p1', p2')) := interleave now s1 p1 p2 db in
    interleave now s2 p1' p2' db'.
Proof.
  revert p1 p2 db. induction s1 as [|[|] s1 IH]; intros p1 p2 db; simpl.
  - reflexivity.
  - destruct (step now p1 db) as [db' p1']. apply IH.
  - destruct (step now p2 db) as [db' p2']. apply IH.
Qed.

(** [n] turns for the first program alone end it when it ends within
    [n] storage calls, as [run] does; the second has not moved. *)
Lemma first_runs_alone {R} (now : Z) (n : nat) (p1 p2 : prog R) (db : Db) :
  ends_within n p1 ->
  exists p1',
    interleave now (repeat true n) p1 p2 db
    = (fst (run now p1 db), (p1', p2))
    /\ result_of p1' = Some (snd (run now p1 db)).
Proof.
  revert p1 db. induction n as [|n IH]; intros p1 db H.
  - exists p1. destruct p1 as [r| |X q k]; simpl; auto. destruct H.
  - simpl. rewrite (run_step now p1 db).
    pose proof (step_ends_within now n p1 db H) as H'.
    destruct (step now p1 db) as [db' p1']. simpl in H'.
    apply IH. exact H'.
Qed.

Lemma second_runs_alone {R} (now : Z) (n : nat) (p1 p2 : prog R) (db : Db) :
  ends_within n p2 ->
  exists p2',
    interleave now (repeat false n) p1 p2 db
    = (fst (run now p2 db), (p1, p2'))
    /\ result_of p2' = Some (snd (run now p2 db)).
Proof.
  revert p2 db. induction n as [|n IH]; intros p2 db H.
  - exists p2. destruct p2 as [r| |X q k]; simpl; auto. destruct H.
  - simpl. rewrite (run_step now p2 db).
    pose proof (step_ends_within now n p2 db H) as H'.
    destruct (step now p2 db) as [db' p2']. simpl in H'.
    apply IH. exact H'.
Qed.

Lemma answer_caught (p : prog (option Response))
  (res : result (option Response)) :
  result_of p = Some res -> answer p = Some (caught res).
Proof.
  destruct p; simpl; intros H; try discriminate; injection H as <-;
    reflexivity.
Qed.

Lemma call_caught (h : Request -> prog (option Response)) (now : Z)
  (req : Request) (db : Db) :
  call h now req db
  = (fst (run now (h req) db), caught (snd (run now (h req) db))).
Proof.
  unfold call, try_catch. destruct (run now (h req) db) as [db' [r|]];
    reflexivity.
Qed.

(** Two calls of the route whose storage calls do not overlap, the four
    turns of the first before the four of the second, leave the store
    and get the answers of the first call followed by the second: the
    interleaved runs agree with the calls served one after the other. *)
Theorem serial_schedule_is_sequential
  (m1 m2 : Method) (now : Z) (req1 req2 : Request) (db : Db) :
  let '(db', (p1, p2)) :=
    interleave now one_after_the_other (route m1 req1) (route m2 req2) db in
  let (dbA, rA) := call (route m1) now req1 db in
  let (dbB, rB) := call (route m2) now req2 dbA in
  db' = dbB /\ answer p1 = Some rA /\ answer p2 = Some rB.
Proof.
  change one_after_the_other with (repeat true 4 ++ repeat false 4)%list.
  rewrite interleave_app.
  destruct (first_runs_alone now 4 (route m1 req1) (route m2 req2) db
              (handlers_end_within_4 m1 req1)) as [p1' [E1 R1]].
  rewrite E1.
  destruct (second_runs_alone now 4 p1' (route m2 req2)
              (fst (run now (route m1 req1) db))
              (handlers_end_within_4 m2 req2)) as [p2' [E2 R2]].
  rewrite E2. rewrite !call_caught.
  repeat split.
  - now apply answer_caught.
  - now apply answer_caught.
Qed.

Lemma race_inserts_twice_witness :
  let '(db', (p1, p2)) :=
    interleave 50%Z turn_by_turn (POST alice_applies) (POST alice_edits)
      (db0 false) in
  answer p1 = Some (Some (respondWithSuccess true (next_id (db0 false))))
  /\ answer p2
     = Some (Some (respondWithSuccess true (S (next_id (db0 false)))))
  /\ offer_applicants db'
     = (offer_applicants (db0 false)
        ++ [{| id := next_id (db0 false); applicant_status := PENDING;
               details := sample_details;
               customer := userId {| userId := "alice"; role := "customer" |};
               offer := offer_id alice_applies |};
            {| id := S (next_id (db0 false)); applicant_status := PENDING;
               details := other_details;
               customer := userId {| userId := "alice"; role := "customer" |};
               offer := offer_id alice_applies |}])%list.
Proof.
  apply (@race_inserts_twice 50%Z alice_applies alice_edits (db0 false)
           {| userId := "alice"; role := "customer" |} sample_details
           other_details);
    reflexivity.
Defined.

(** With the unique constraint on the table, two applies of one customer
    that take turns on an open offer still both pass the duplicate check;
    the first insert goes through, the second throws, and the second
    caller is answered ServerError where a call served after the first
    would have got a Conflict.  One application is left. *)
Theorem race_with_constraint (now : Z) (req1 req2 : Request) (db : Db)
  (a : Authorization) (d1 d2 : Details) :
  customer_request req1 = Some (a, d1) ->
  customer_request req2 = Some (a, d2) ->
  offer_id req2 = offer_id req1 ->
  existsb (is_open_offer (offer_id req1) now) (offers db) = true ->
  existsb (is_application (userId a) (offer_id req1)) (offer_applicants db)
  = false ->
  unique_customer_offer db = true ->
  let '(db', (p1, p2)) :=
    interleave now turn_by_turn (POST req1) (POST req2) db in
  answer p1 = Some (Some (respondWithSuccess true (next_id db)))
  /\ answer p2 = Some (Some respondWithServerError)
  /\ offer_applicants db'
     = (offer_applicants db
        ++ [{| id := next_id db; applicant_status := PENDING;
               details := d1; customer := userId a;
               offer := offer_id req1 |}])%list
  /\ snd (call POST now req2 (fst (call POST now req1 db)))
     = Some (respondWithConflict MSG_OFFER_UNAVAILABLE).
Proof.
  intros H1 H2 Hid Hopen Hnone Hu.
  assert (Hseq : snd (call POST now req2 (fst (call POST now req1 db)))
                 = Some (respondWithConflict MSG_OFFER_UNAVAILABLE)).
  { destruct (call POST now req1 db) as [dbA rA] eqn:EA.
    assert (exists ok i, rA = Some (respondWithSuccess ok i)) as [ok [i ->]].
    { pose proof (POST_succeeds_iff now req1 db) as [[_ Hs] _].
      rewrite EA in Hs. simpl in Hs. apply Hs. eauto. }
    simpl. apply call_POST_success in EA.
    destruct EA as [a0 [d0 [_ [_ [_ [-> _]]]]]].
    rewrite (@call_POST_customer now req2 _ a d2 H2), Hid.
    rewrite applied_closes_offer. reflexivity. }
  apply customer_request_inv in H1. destruct H1 as [Ha1 [Hc [b1 [Hb1 Hp1]]]].
  apply customer_request_inv in H2. destruct H2 as [Ha2 [_ [b2 [Hb2 Hp2]]]].
  assert (Eo : exists o, hd_error (filter (is_open_offer (offer_id req1) now)
                                     (offers db)) = Some o).
  { destruct (hd_error (filter _ (offers db))) eqn:E; [eauto|].
    apply hd_error_filter_none in E. congruence. }
  destruct Eo as [o Eo].
  assert (Ea : hd_error (filter (is_application (userId a) (offer_id req1))
                           (offer_applicants db)) = None).
  { destruct (hd_error (filter _ (offer_applicants db))) eqn:E;
      [|reflexivity].
    apply hd_error_filter_some in E. destruct E as [Hin Hf].
    assert (existsb (is_application (userId a) (offer_id req1))
              (offer_applicants db) = true)
      by (apply existsb_exists; eauto).
    congruence. }
  revert Hseq. generalize (snd (call POST now req2
                                   (fst (call POST now req1 db)))).
  intros rseq Hseq.
  unfold turn_by_turn, POST.
  rewrite Hb1, Hp1, Ha1, Hb2, Hp2, Ha2, Hc, Hid. simpl.
  rewrite Eo. simpl. rewrite Ea. simpl. rewrite Hu, Hnone. simpl.
  rewrite existsb_app. simpl. unfold is_application. simpl.
  rewrite !String.eqb_refl. simpl. rewrite orb_true_r. simpl.
  repeat split; auto.
Qed.

Lemma race_with_constraint_witness :
  let '(db', (p1, p2)) :=
    interleave 50%Z turn_by_turn (POST alice_applies) (POST alice_edits)
      (db0 true) in
  answer p1 = Some (Some (respondWithSuccess true (next_id (db0 true))))
  /\ answer p2 = Some (Some respondWithServerError)
  /\ offer_applicants db'
     = (offer_applicants (db0 true)
        ++ [{| id := next_id (db0 true); applicant_status := PENDING;
               details := sample_details;
               customer := userId {| userId := "alice"; role := "customer" |};
               offer := offer_id alice_applies |}])%list
  /\ snd (call POST 50%Z alice_edits
            (fst (call POST 50%Z alice_applies (db0 true))))
     = Some (respondWithConflict MSG_OFFER_UNAVAILABLE).
Proof.
  apply (@race_with_constraint 50%Z alice_applies alice_edits (db0 true)
           {| userId := "alice"; role := "customer" |} sample_details
           other_details);
    reflexivity.
Defined.

(** * Listing the applicants of an offer ([applicants/route.ts]) *)

(** The rows of [single_offers], [single_offer_applicants] and [users],
    with the columns the handler reads.  The seven request columns are
    grouped as in [ApplicantRow]. *)
Record SingleOffer := { so_id : string; freelancer : string }.

Record SingleApplicant := {
  sa_id : string;
  sa_details : Details;
  sa_customer : string;
  sa_offer : string
}.

Record User := { u_id : string; u_name : string }.

Record SingleDb := {
  single_offers : list SingleOffer;
  single_offer_applicants : list SingleApplicant;
  users : list User
}.

(** A row of the join, as the query selects it. *)
Record JoinedRow := {
  j_id : string;
  j_details : Details;
  customer_id : string;
  customer_name : string
}.

(** An entry of [GETResponse.applicants]. *)
Record CustomerRef := { c_id : string; c_name : string }.
Record Applicant := {
  a_id : string;
  a_details : Details;
  a_customer : CustomerRef
}.

(** What [GET] answers. *)
Inductive GETAnswer :=
| GET_Success (applicants : list Applicant)
| GET_Unauthorized
| GET_NotFound (msg : string)
| GET_Forbidden (msg : string)
| GET_ServerError.

Definition MSG_OFFER_NOT_FOUND : string := "Offer tidak ditemukan!".
Definition MSG_NOT_YOUR_OFFER : string :=
  "Anda tidak memiliki akses untuk melihat data ini!".

(** The ownership query: a row of [single_offers] with the id, here the
    first one. *)
Definition select_single_offer (oid : string) (db : SingleDb)
  : option SingleOffer :=
  hd_error (filter (fun o => so_id o =? oid) (single_offers db)).

(** The join of the applicants with their users, kept where the
    applicant is on the offer.  The query has no [ORDER BY]: the order
    of the rows is the store's to choose; the one taken here is that of
    the applicants table, and what is proved of a listing is proved up
    to a permutation. *)
Definition select_applicants (oid : string) (db : SingleDb)
  : list JoinedRow :=
  map (fun au : SingleApplicant * User =>
         {| j_id := sa_id (fst au); j_details := sa_details (fst au);
            customer_id := u_id (snd au); customer_name := u_name (snd au) |})
    (filter (fun au : SingleApplicant * User =>
               (u_id (snd au) =? sa_customer (fst au))
               && (sa_offer (fst au) =? oid))
       (list_prod (single_offer_applicants db) (users db))).

Definition formatted (applicant : JoinedRow) : Applicant :=
  {| a_id := j_id applicant;
     a_details := j_details applicant;
     a_customer := {| c_id := customer_id applicant;
                      c_name := customer_name applicant |} |}.

(** [GET]: the freelancer of an offer lists its applicants.  Both
    queries only read; none throws by itself, so the [catch] is taken
    on a storage fault only. *)
Definition GET (req : Request) (db : SingleDb) : GETAnswer :=
  match authorization req with
  | None => GET_Unauthorized
  | Some a =>
      match select_single_offer (offer_id req) db with
      | None => GET_NotFound MSG_OFFER_NOT_FOUND
      | Some o =>
          if negb (freelancer o =? userId a)
          then GET_Forbidden MSG_NOT_YOUR_OFFER
          else GET_Success (map formatted
                              (select_applicants (offer_id req) db))
      end
  end.

(** The entry the listing shows for applicant [ap] of user [u]. *)
Definition entry_of (ap : SingleApplicant) (u : User) : Applicant :=
  {| a_id := sa_id ap; a_details := sa_details ap;
     a_customer := {| c_id := u_id u; c_name := u_name u |} |}.

(** A credential with the same user and another role. *)
Definition with_role (ro : string) (req : Request) : Request :=
  {| offer_id := offer_id req;
     authorization :=
       option_map (fun a => {| userId := userId a; role := ro |})
         (authorization req);
     json := json req |}.

(** Who may list.  The listing is given exactly to a caller whose id is
    the [freelancer] of the offer's row; the role in the credential is
    not looked at, the answer is the same for any role.  When every row
    with the offer id names the caller as freelancer, the caller gets
    the listing, and a listing is only ever given to the freelancer of
    such a row.  Without a credential the answer is Unauthorized before
    any offer is looked up, and NotFound is for a credential and an
    offer id with no row. *)
Theorem GET_only_for_the_offers_freelancer (req : Request) (db : SingleDb) :
  ((exists l, GET req db = GET_Success l)
   <-> exists a o,
         authorization req = Some a
         /\ select_single_offer (offer_id req) db = Some o
         /\ freelancer o = userId a)
  /\ (forall ro, GET (with_role ro req) db = GET req db)
  /\ (forall a,
        authorization req = Some a ->
        (exists o, In o (single_offers db) /\ so_id o = offer_id req) ->
        (forall o, In o (single_offers db) -> so_id o = offer_id req ->
                   freelancer o = userId a) ->
        GET req db
        = GET_Success (map formatted (select_applicants (offer_id req) db)))
  /\ (forall l, GET req db = GET_Success l ->
        exists a o,
          authorization req = Some a
          /\ In o (single_offers db) /\ so_id o = offer_id req
          /\ freelancer o = userId a)
  /\ (GET req db = GET_Unauthorized <-> authorization req = None)
  /\ (forall m, GET req db = GET_NotFound m <->
        m = MSG_OFFER_NOT_FOUND
        /\ authorization req <> None
        /\ forall o, In o (single_offers db) -> so_id o <> offer_id req).
Proof.
  assert (Hsome : forall o,
            select_single_offer (offer_id req) db = Some o ->
            In o (single_offers db) /\ so_id o = offer_id req).
  { intros o Ho. apply hd_error_filter_some in Ho. destruct Ho as [Hin Hid].
    apply String.eqb_eq in Hid. auto. }
  assert (Hnone : select_single_offer (offer_id req) db = None ->
            forall o, In o (single_offers db) -> so_id o <> offer_id req).
  { unfold select_single_offer. intros Hn o Hin Hid.
    assert (Hf : filter (fun o => so_id o =? offer_id req)
                   (single_offers db) = []).
    { destruct (filter _ (single_offers db)); [reflexivity|discriminate]. }
    pose proof (proj1 (filter_none_iff _ _) Hf o Hin) as Hx.
    simpl in Hx. apply String.eqb_neq in Hx. contradiction. }
  split; [|split; [|split; [|split; [|split]]]].
  - unfold GET. split.
    + intros [l H]. destruct (authorization req) as [a|]; [|discriminate].
      destruct (select_single_offer (offer_id req) db) as [o|];
        [|discriminate].
      destruct (freelancer o =? userId a) eqn:Ef; simpl in H;
        [|discriminate].
      apply String.eqb_eq in Ef. eauto.
    + intros [a [o [-> [-> Hf]]]]. rewrite Hf, String.eqb_refl. simpl.
      eauto.
  - intros ro. unfold GET, with_role. simpl.
    destruct (authorization req) as [a|]; reflexivity.
  - intros a Ha [o0 [Hin0 Hid0]] Hall. unfold GET. rewrite Ha.
    destruct (select_single_offer (offer_id req) db) as [o|] eqn:Eo.
    + destruct (Hsome o eq_refl) as [Hin Hid].
      rewrite (Hall o Hin Hid), String.eqb_refl. reflexivity.
    + exfalso. now apply (Hnone eq_refl o0 Hin0).
  - unfold GET. intros l H.
    destruct (authorization req) as [a|]; [|discriminate].
    destruct (select_single_offer (offer_id req) db) as [o|] eqn:Eo;
      [|discriminate].
    destruct (freelancer o =? userId a) eqn:Ef; simpl in H; [|discriminate].
    apply String.eqb_eq in Ef. destruct (Hsome o eq_refl). exists a, o. auto.
  - unfold GET. destruct (authorization req) as [a|];
      [|split; reflexivity].
    destruct (select_single_offer (offer_id req) db) as [o|];
      [destruct (negb _)|]; split; discriminate.
  - intros m. unfold GET. destruct (authorization req) as [a|].
    + destruct (select_single_offer (offer_id req) db) as [o|] eqn:Eo.
      * destruct (Hsome o eq_refl) as [Hin Hid].
        split; [destruct (negb _); discriminate|].
        intros [_ [_ H]]. exfalso. now apply (H o Hin).
      * split.
        -- intros H. injection H as <-.
           repeat split; [discriminate | now apply Hnone].
        -- intros [-> _]. reflexivity.
    + split; [discriminate|]. intros [_ [H _]]. contradiction.
Qed.

Lemma GET_success_list (req : Request) (db : SingleDb) (l : list Applicant) :
  GET req db = GET_Success l ->
  l = map formatted (select_applicants (offer_id req) db).
Proof.
  unfold GET. destruct (authorization req) as [a|]; [|discriminate].
  destruct (select_single_offer (offer_id req) db) as [o|]; [|discriminate].
  destruct (negb _); [discriminate|]. intros H. now injection H as <-.
Qed.

Lemma filter_map_pre {A B} (p : B -> bool) (f : A -> B) (l : list A) :
  filter p (map f l) = map f (filter (fun x => p (f x)) l).
Proof.
  induction l as [|x l IH]; simpl; [reflexivity|].
  destruct (p (f x)); simpl; [f_equal|]; exact IH.
Qed.

(** The users an applicant is joined with. *)
Definition users_of (ap : SingleApplicant) (db : SingleDb) : list User :=
  filter (fun u => u_id u =? sa_customer ap) (users db).

(** The entries of the listing, applicant by applicant: those of an
    applicant on the offer, one for each of its users. *)
Definition entries (oid : string) (db : SingleDb) : list Applicant :=
  flat_map (fun ap => map (entry_of ap) (users_of ap db))
    (filter (fun ap => sa_offer ap =? oid) (single_offer_applicants db)).

Lemma select_applicants_entries (oid : string) (db : SingleDb) :
  map formatted (select_applicants oid db) = entries oid db.
Proof.
  unfold select_applicants, entries, users_of. rewrite !map_map. simpl.
  induction (single_offer_applicants db) as [|ap aps IH]; simpl;
    [reflexivity|].
  rewrite filter_app, map_app, IH. clear IH.
  rewrite filter_map_pre, map_map. simpl.
  destruct (sa_offer ap =? oid); simpl.
  - f_equal. f_equal. apply filter_ext. intros u. apply andb_true_r.
  - replace (filter _ (users db)) with (@nil User); [reflexivity|].
    symmetry. apply filter_none_iff. intros u _. apply andb_false_r.
Qed.

(** What the listing holds, whatever the order the store returns the
    rows in: for each applicant row on this offer, one entry per user
    row with the applicant's customer id, carrying the applicant's id
    and details and the user's id and name, and nothing else.  No entry
    comes twice for one pair of rows, applicants of other offers never
    show, and an applicant whose customer has no row in [users] is left
    out. *)
Theorem GET_lists_exactly (req : Request) (db : SingleDb)
  (l : list Applicant) :
  GET req db = GET_Success l ->
  Permutation l (entries (offer_id req) db)
  /\ forall x,
       In x l <->
       exists ap u,
         In ap (single_offer_applicants db) /\ In u (users db)
         /\ sa_offer ap = offer_id req /\ u_id u = sa_customer ap
         /\ x = entry_of ap u.
Proof.
  intros H. apply GET_success_list in H. subst l.
  rewrite select_applicants_entries. split; [apply Permutation_refl|].
  intros x. unfold entries, users_of. rewrite in_flat_map. split.
  - intros [ap [Hap Hx]]. apply filter_In in Hap.
    destruct Hap as [Hap Ho]. apply String.eqb_eq in Ho.
    apply in_map_iff in Hx. destruct Hx as [u [<- Hu]].
    apply filter_In in Hu. destruct Hu as [Hu Hc].
    apply String.eqb_eq in Hc. exists ap, u. auto.
  - intros [ap [u [Ha [Hu [Ho [Hc ->]]]]]]. exists ap. split.
    + apply filter_In. split; [exact Ha|]. now apply String.eqb_eq.
    + apply in_map. apply filter_In. split; [exact Hu|].
      now apply String.eqb_eq.
Qed.

(** The sample listing: offer [s1] of freelancer dina, alice and a
    customer without a user row on it, bob on another offer. *)
Definition sdb : SingleDb :=
  {| single_offers := [{| so_id := "s1"; freelancer := "dina" |};
                       {| so_id := "s2"; freelancer := "dina" |}];
     single_offer_applicants :=
       [{| sa_id := "p1"; sa_details := sample_details;
           sa_customer := "alice"; sa_offer := "s1" |};
        {| sa_id := "p2"; sa_details := other_details;
           sa_customer := "bob"; sa_offer := "s2" |};
        {| sa_id := "p3"; sa_details := other_details;
           sa_customer := "gone"; sa_offer := "s1" |};
        {| sa_id := "p4"; sa_details := other_details;
           sa_customer := "bob"; sa_offer := "s1" |}];
     users := [{| u_id := "alice"; u_name := "Alice" |};
               {| u_id := "bob"; u_name := "Bob" |};
               {| u_id := "dina"; u_name := "Dina" |}] |}.

Definition dina_lists : Request :=
  {| offer_id := "s1";
     authorization := Some {| userId := "dina"; role := "freelancer" |};
     json := None |}.

(** What dina is shown for [s1]: alice's application and bob's. *)
Definition dina_sees : list Applicant :=
  [entry_of {| sa_id := "p1"; sa_details := sample_details;
               sa_customer := "alice"; sa_offer := "s1" |}
     {| u_id := "alice"; u_name := "Alice" |};
   entry_of {| sa_id := "p4"; sa_details := other_details;
               sa_customer := "bob"; sa_offer := "s1" |}
     {| u_id := "bob"; u_name := "Bob" |}].

Lemma GET_lists_exactly_witness :
  GET dina_lists sdb = GET_Success dina_sees
  /\ Permutation dina_sees (entries (offer_id dina_lists) sdb)
  /\ length (entries (offer_id dina_lists) sdb) = 2.
Proof.
  assert (H : GET dina_lists sdb = GET_Success dina_sees) by reflexivity.
  split; [exact H|]. split; [|reflexivity].
  exact (proj1 (@GET_lists_exactly dina_lists sdb dina_sees H)).
Defined.

(** With distinct keys, a key selects no row or one. *)
Lemma filter_unique_key (us : list User) (c : string) :
  NoDup (map u_id us) ->
  length (filter (fun u => u_id u =? c) us)
  = if existsb (fun u => u_id u =? c) us then 1 else 0.
Proof.
  induction us as [|u us IH]; simpl; intros H; [reflexivity|].
  inversion H as [|? ? Hnin Hnd]; subst.
  destruct (u_id u =? c) eqn:E; simpl.
  - apply String.eqb_eq in E. subst c.
    replace (filter (fun x => u_id x =? u_id u) us) with (@nil User);
      [reflexivity|].
    symmetry. apply filter_none_iff. intros x Hx.
    apply String.eqb_neq. intros Heq. apply Hnin. rewrite <- Heq.
    now apply in_map.
  - now apply IH.
Qed.

(** The applications the listing counts: on the offer, with a user row
    for the customer. *)
Definition listed (oid : string) (db : SingleDb) (ap : SingleApplicant)
  : bool :=
  (sa_offer ap =? oid)
  && existsb (fun u => u_id u =? sa_customer ap) (users db).

Lemma entries_ids (oid : string) (db : SingleDb) :
  NoDup (map u_id (users db)) ->
  map a_id (entries oid db)
  = map sa_id (filter (listed oid db) (single_offer_applicants db)).
Proof.
  intros Hnd. unfold entries, users_of, listed.
  induction (single_offer_applicants db) as [|ap aps IH]; simpl;
    [reflexivity|].
  pose proof (filter_unique_key (users db) (sa_customer ap) Hnd) as Hk.
  destruct (sa_offer ap =? oid); simpl; [|exact IH].
  rewrite map_app, IH. clear IH.
  destruct (existsb _ (users db)); simpl.
  - destruct (filter _ (users db)) as [|u [|u' us]]; try discriminate.
    reflexivity.
  - destruct (filter _ (users db)); [reflexivity | discriminate].
Qed.

(** With distinct user ids, the ids in the listing are, up to the order
    the store returns the rows in, the ids of the applications on the
    offer whose customer has a user row: each of them once, no
    application listed twice. *)
Theorem GET_one_entry_per_application (req : Request) (db : SingleDb)
  (l : list Applicant) :
  NoDup (map u_id (users db)) ->
  GET req db = GET_Success l ->
  Permutation (map a_id l)
    (map sa_id (filter (listed (offer_id req) db)
                  (single_offer_applicants db)))
  /\ length l
     = length (filter (listed (offer_id req) db)
                 (single_offer_applicants db)).
Proof.
  intros Hnd H. apply GET_success_list in H. subst l.
  rewrite select_applicants_entries.
  pose proof (entries_ids (offer_id req) db Hnd) as E.
  split.
  - rewrite E. apply Permutation_refl.
  - rewrite <- (length_map a_id), E. apply length_map.
Qed.

Lemma GET_one_entry_per_application_witness :
  Permutation (map a_id dina_sees)
    (map sa_id (filter (listed (offer_id dina_lists) sdb)
                  (single_offer_applicants sdb)))
  /\ length dina_sees
     = length (filter (listed (offer_id dina_lists) sdb)
                 (single_offer_applicants sdb)).
Proof.
  apply (@GET_one_entry_per_application dina_lists sdb dina_sees).
  - simpl. repeat constructor; simpl; intuition discriminate.
  - reflexivity.
Defined.

(** * The chat client's notifications ([chats/[userId]/page.tsx]) *)

Section ChatClient.

Variable getPrefixedTopic : string -> string.

(** [onMessage] of the client: whether a message that arrives on
    [topic] makes it fetch the conversation again. *)
Definition onMessage (props : ClientProps) (topic : string) : bool :=
  topic =? mqttChatMessagesSubTopic getPrefixedTopic props.

(** What [onSuccess] of the send publishes, in order: topic and
    payload. *)
Definition onSuccess_publishes (props : ClientProps)
  : list (string * string) :=
  [(mqttChatMessagesPubTopic getPrefixedTopic props, "new notification");
   (mqttChatRoomsPubTopic getPrefixedTopic props, "new notification")].

End ChatClient.

Lemma append_same_prefix (x y z : string) : x ++ y = x ++ z -> y = z.
Proof.
  induction x as [|c x IH]; simpl; intros H; [exact H|].
  injection H as H. now apply IH.
Qed.

Section ChatClientFacts.

Variable getPrefixedTopic : string -> string.

Hypothesis getPrefixedTopic_inj :
  forall s t, getPrefixedTopic s = getPrefixedTopic t -> s = t.

(** When [b] has sent a message to [a], of the two notifications [b]'s
    client publishes the first makes [a]'s client in the chat with [b]
    fetch the conversation again and the second, the room one, does not;
    and the first reaches no other user's chat with [b]. *)
Theorem send_notifies_the_counterpart (a b : string) :
  map (fun tm => onMessage getPrefixedTopic
                   {| authenticatedUser := a; toUser := b |} (fst tm))
    (onSuccess_publishes getPrefixedTopic
       {| authenticatedUser := b; toUser := a |})
  = [true; false]
  /\ forall c,
       onMessage getPrefixedTopic
         {| authenticatedUser := c; toUser := b |}
         (mqttChatMessagesPubTopic getPrefixedTopic
            {| authenticatedUser := b; toUser := a |})
       = (a =? c).
Proof.
  split.
  - unfold onSuccess_publishes, onMessage, mqttChatMessagesPubTopic,
      mqttChatMessagesSubTopic, mqttChatRoomsPubTopic. simpl.
    rewrite String.eqb_refl. f_equal. f_equal.
    apply String.eqb_neq. intros H. apply getPrefixedTopic_inj in H.
    discriminate.
  - intros c. unfold onMessage, mqttChatMessagesPubTopic,
      mqttChatMessagesSubTopic. cbn [authenticatedUser toUser].
    destruct (a =? c) eqn:E.
    + apply String.eqb_eq in E. subst c. apply String.eqb_refl.
    + apply String.eqb_neq. intros H. apply getPrefixedTopic_inj in H.
      apply (append_same_prefix "chat-messages/") in H.
      apply (append_same_prefix b) in H.
      apply (append_same_prefix "-") in H.
      apply String.eqb_neq in E. contradiction.
Qed.

End ChatClientFacts.

Lemma send_notifies_the_counterpart_witness :
  map (fun tm => onMessage sample_prefix
                   {| authenticatedUser := "u1"; toUser := "u2" |} (fst tm))
    (onSuccess_publishes sample_prefix
       {| authenticatedUser := "u2"; toUser := "u1" |})
  = [true; false]
  /\ forall c,
       onMessage sample_prefix
         {| authenticatedUser := c; toUser := "u2" |}
         (mqttChatMessagesPubTopic sample_prefix
            {| authenticatedUser := "u2"; toUser := "u1" |})
       = ("u1" =? c).
Proof.
  apply (@send_notifies_the_counterpart sample_prefix).
  unfold sample_prefix. simpl. intros s t H. injection H as H. exact H.
Defined.

(** * Edges of the three handlers *)

(** What a caller without a credential is told.  [POST] parses and
    validates the body first: it answers ServerError for a body that
    does not parse, the schema's issues for one the schema rejects, and
    Unauthorized only after that.  [DELETE] and [PATCH] check the offer
    id and then the credential: apart from an empty offer id they answer
    Unauthorized, [PATCH] without having read the body. *)
Theorem answers_without_credential (now : Z) (req : Request) (db : Db) :
  authorization req = None ->
  call POST now req db
  = (db, Some match json req with
              | None => respondWithServerError
              | Some b =>
                  match safeParse b (offer_id req) with
                  | inr errors => respondWithBadRequest errors
                  | inl _ => respondWithUnauthorized
                  end
              end)
  /\ call DELETE now req db
     = (db, Some match validate_offerId (offer_id req) with
                 | [] => respondWithUnauthorized
                 | errors => respondWithBadRequest errors
                 end)
  /\ call PATCH now req db = call DELETE now req db.
Proof.
  intros Ha. unfold call, try_catch, POST, DELETE, PATCH. rewrite Ha.
  split; [|split].
  - destruct (json req) as [b|]; [|reflexivity].
    destruct (safeParse b (offer_id req)); reflexivity.
  - destruct (validate_offerId (offer_id req)); reflexivity.
  - destruct (validate_offerId (offer_id req)); reflexivity.
Qed.

Definition nobody_applies : Request :=
  {| offer_id := "o1"; authorization := None; json := Some note_only |}.

Lemma answers_without_credential_witness :
  call POST 50%Z nobody_applies (db0 true)
  = (db0 true,
     Some match json nobody_applies with
          | None => respondWithServerError
          | Some b =>
              match safeParse b (offer_id nobody_applies) with
              | inr errors => respondWithBadRequest errors
              | inl _ => respondWithUnauthorized
              end
          end)
  /\ call DELETE 50%Z nobody_applies (db0 true)
     = (db0 true,
        Some match validate_offerId (offer_id nobody_applies) with
             | [] => respondWithUnauthorized
             | errors => respondWithBadRequest errors
             end)
  /\ call PATCH 50%Z nobody_applies (db0 true)
     = call DELETE 50%Z nobody_applies (db0 true).
Proof.
  apply (@answers_without_credential 50%Z nobody_applies (db0 true)).
  reflexivity.
Defined.

(** The edit's lookup, the withdraw, then the edit's update. *)
Definition withdraw_in_between : list bool := [true; false; true].

(** An edit overtaken by the caller's own withdraw: the edit finds the
    application, the withdraw deletes it, the update then matches no row
    of the caller, and the edit ends as it does after a real update,
    without an answer.  The Conflict of [PATCH] is never given: its test
    is on the array the update returns, and no call of [PATCH] served
    alone answers Conflict either. *)
Theorem edit_overtaken_by_withdraw
  (now : Z) (req req' : Request) (db : Db) (a : Authorization)
  (d : Details) :
  customer_request req = Some (a, d) ->
  offer_id req' = offer_id req ->
  authorization req' = authorization req ->
  existsb (is_application (userId a) (offer_id req)) (offer_applicants db)
  = true ->
  (let '(db', (p1, p2)) :=
     interleave now withdraw_in_between (PATCH req) (DELETE req') db in
   answer p1 = Some None
   /\ (exists i, answer p2 = Some (Some (respondWithSuccess true i)))
   /\ forall r, In r (offer_applicants db') ->
                is_application (userId a) (offer_id req) r = false)
  /\ forall now' rq s m,
       snd (call PATCH now' rq s) <> Some (respondWithConflict m).
Proof.
  intros Hcr Hid Hau Hex. split.
  - pose proof (customer_request_inv req Hcr) as [Ha [Hc [b [Hb Hp]]]].
    pose proof (safeParse_validates_offer_id _ _ Hp) as Hv.
    assert (Hf : exists e rest,
               filter (is_application (userId a) (offer_id req))
                 (offer_applicants db) = e :: rest).
    { destruct (filter _ (offer_applicants db)) as [|e rest] eqn:E;
        [|eauto].
      assert (existsb (is_application (userId a) (offer_id req))
                (offer_applicants db) = false).
      { apply hd_error_filter_none. rewrite E. reflexivity. }
      congruence. }
    destruct Hf as [e [rest Hf]].
    unfold withdraw_in_between, PATCH, DELETE.
    rewrite Hid, Hau, Hv, Ha, Hb, Hp, Hc. simpl.
    rewrite Hf. simpl.
    repeat split; eauto.
    intros r Hr. apply in_map_iff in Hr. destruct Hr as [r0 [<- Hr0]].
    rewrite is_application_set_details.
    apply filter_In in Hr0. destruct Hr0 as [_ Hr0].
    now apply negb_true_iff in Hr0.
  - intros now' req0 db0 m.
    destruct (call_PATCH_guarded now' req0 db0)
      as [[a0 [d0 [Hv0 Hcr0]]] | [r E]].
    + rewrite (@call_PATCH_customer now' req0 db0 a0 d0 Hv0 Hcr0).
      destruct (hd_error (filter _ (offer_applicants db0))); simpl;
        discriminate.
    + rewrite E. simpl. intros H. injection H as ->.
      revert E. unfold call, try_catch, PATCH.
      destruct (validate_offerId (offer_id req0)); [|discriminate].
      destruct (authorization req0) as [a1|]; [|discriminate].
      destruct (json req0) as [b1|]; simpl; [|discriminate].
      destruct (safeParse b1 (offer_id req0)); [|discriminate].
      destruct (is_customer a1); simpl; [|discriminate].
      destruct (hd_error (filter _ (offer_applicants db0))); simpl;
        discriminate.
Qed.

Lemma edit_overtaken_by_withdraw_witness :
  (let '(db', (p1, p2)) :=
     interleave 60%Z withdraw_in_between (PATCH alice_edits)
       (DELETE alice_withdraws) (db1 true) in
   answer p1 = Some None
   /\ (exists i, answer p2 = Some (Some (respondWithSuccess true i)))
   /\ forall r, In r (offer_applicants db') ->
                is_application
                  (userId {| userId := "alice"; role := "customer" |})
                  (offer_id alice_edits) r = false)
  /\ forall now' rq s m,
       snd (call PATCH now' rq s) <> Some (respondWithConflict m).
Proof.
  apply (@edit_overtaken_by_withdraw 60%Z alice_edits alice_withdraws
           (db1 true) {| userId := "alice"; role := "customer" |}
           other_details);
    reflexivity.
Defined.
